(** * The fuzzy-search pipeline of the Slack assistant ([app.js])

    A shallow embedding of the [userMessage] handler of [app.js] and of the
    JavaScript primitives it relies on, followed by the properties of the
    fuzzy-search pipeline: query extraction, keyword expansion parsing,
    search aggregation, index parsing, deduplication and presentation. *)

From Stdlib Require Import String Ascii List ZArith NArith Bool Lia Permutation.
Import ListNotations.

Local Open Scope N_scope.

(** ** JavaScript strings

    A JavaScript string is a sequence of UTF-16 code units; [length],
    [substring], [split], [trim] and [startsWith] all count code units. *)

Definition code_unit := N.
Definition jsstring := list code_unit.

(** String literals of the source file are stored as UTF-8; [js] decodes
    such a literal into the UTF-16 code units the engine works with. *)

Fixpoint utf8_points (bs : list N) : list N :=
  match bs with
  | [] => []
  | b0 :: r0 =>
      if b0 <? 0x80 then b0 :: utf8_points r0
      else
        match r0 with
        | [] => [0xFFFD]
        | b1 :: r1 =>
            if b0 <? 0xE0 then
              N.lor (N.shiftl (N.land b0 0x1F) 6) (N.land b1 0x3F) :: utf8_points r1
            else
              match r1 with
              | [] => [0xFFFD]
              | b2 :: r2 =>
                  if b0 <? 0xF0 then
                    N.lor (N.shiftl (N.land b0 0x0F) 12)
                      (N.lor (N.shiftl (N.land b1 0x3F) 6) (N.land b2 0x3F))
                    :: utf8_points r2
                  else
                    match r2 with
                    | [] => [0xFFFD]
                    | b3 :: r3 =>
                        N.lor (N.shiftl (N.land b0 0x07) 18)
                          (N.lor (N.shiftl (N.land b1 0x3F) 12)
                             (N.lor (N.shiftl (N.land b2 0x3F) 6) (N.land b3 0x3F)))
                        :: utf8_points r3
                    end
              end
        end
  end.

Definition utf16_units (p : N) : list code_unit :=
  if p <? 0x10000 then [p]
  else
    let q := p - 0x10000 in
    [0xD800 + N.shiftr q 10; 0xDC00 + N.land q 0x3FF].

Definition js (s : string) : jsstring :=
  flat_map utf16_units (utf8_points (map N_of_ascii (list_ascii_of_string s))).

Fixpoint jsstring_eqb (a b : jsstring) : bool :=
  match a, b with
  | [], [] => true
  | x :: a', y :: b' => (x =? y) && jsstring_eqb a' b'
  | _, _ => false
  end.

(** [String.prototype.startsWith]. *)
Fixpoint startsWith (s p : jsstring) : bool :=
  match p, s with
  | [], _ => true
  | x :: p', y :: s' => (x =? y) && startsWith s' p'
  | _ :: _, [] => false
  end.

(** [String.prototype.substring(0, n)]: the first [n] code units. *)
Definition substring0 (s : jsstring) (n : nat) : jsstring := firstn n s.

(** WhiteSpace and LineTerminator code units, the ones [trim] (and the
    leading-blank skipping of [parseInt]) remove. *)
Definition isWhiteSpace (c : code_unit) : bool :=
  existsb (N.eqb c)
    [0x09; 0x0A; 0x0B; 0x0C; 0x0D; 0x20; 0xA0; 0x1680;
     0x2028; 0x2029; 0x202F; 0x205F; 0x3000; 0xFEFF]
  || ((0x2000 <=? c) && (c <=? 0x200A)).

Fixpoint trimStart (s : jsstring) : jsstring :=
  match s with
  | [] => []
  | c :: r => if isWhiteSpace c then trimStart r else s
  end.

Definition trimEnd (s : jsstring) : jsstring := rev (trimStart (rev s)).

(** [String.prototype.trim]. *)
Definition trim (s : jsstring) : jsstring := trimEnd (trimStart s).

(** [s.split(sep)] for a one-code-unit separator: every occurrence of a
    separator ends a token, so [n] separators give [n + 1] tokens, empty
    ones included. *)
Fixpoint split_on (sep : code_unit -> bool) (s : jsstring) : list jsstring :=
  match s with
  | [] => [[]]
  | c :: r =>
      if sep c then [] :: split_on sep r
      else
        match split_on sep r with
        | tok :: toks => (c :: tok) :: toks
        | [] => [[c]]
        end
  end.

(** [s.split(/[...]+/)] for a character class: a maximal run of separator
    code units is one separator (the sticky match at a position is greedy),
    so empty tokens only arise before a leading run and after a trailing
    one.  [in_run] tells that the previous code unit was a separator. *)
Fixpoint split_runs_from (sep : code_unit -> bool) (in_run : bool) (s : jsstring)
  : list jsstring :=
  match s with
  | [] => [[]]
  | c :: r =>
      if sep c then
        if in_run then split_runs_from sep true r
        else [] :: split_runs_from sep true r
      else
        match split_runs_from sep false r with
        | tok :: toks => (c :: tok) :: toks
        | [] => [[c]]
        end
  end.

Definition split_runs (sep : code_unit -> bool) (s : jsstring) : list jsstring :=
  split_runs_from sep false s.

(** [Array.prototype.join]. *)
Fixpoint join (sep : jsstring) (l : list jsstring) : jsstring :=
  match l with
  | [] => []
  | [x] => x
  | x :: r => x ++ sep ++ join sep r
  end.

(** Number-to-string conversion of a non-negative integer, as a template
    literal performs it on an array position. *)
Fixpoint decimal_digits (fuel : nat) (n : N) (acc : jsstring) : jsstring :=
  match fuel with
  | O => acc
  | S fuel' =>
      let acc' := (0x30 + n mod 10) :: acc in
      if n <? 10 then acc' else decimal_digits fuel' (n / 10) acc'
  end.

Definition number_toString (n : N) : jsstring :=
  decimal_digits (S (N.to_nat (N.log2 n))) n [].


(** ** JavaScript numbers and [parseInt]

    The handler only parses integers, subtracts one and compares with an
    array length.  [parseInt] yields the mathematical value of the digits
    converted to a double; that conversion is exact up to [2^53] and
    monotone beyond, and an array has fewer than [2^32] elements, so the
    comparisons below have the same outcome on the exact integer. *)

Inductive number : Type :=
| NaN
| Num (z : Z).

Definition is_digit (c : code_unit) : bool := (0x30 <=? c) && (c <=? 0x39).

(** Value of a code unit as a digit of the given radix. *)
Definition digit_value (radix : Z) (c : code_unit) : option Z :=
  let d :=
    if is_digit c then Some (Z.of_N (c - 0x30))
    else if (0x61 <=? c) && (c <=? 0x7A) then Some (Z.of_N (c - 0x61) + 10)%Z
    else if (0x41 <=? c) && (c <=? 0x5A) then Some (Z.of_N (c - 0x41) + 10)%Z
    else None in
  match d with
  | Some v => if (v <? radix)%Z then Some v else None
  | None => None
  end.

(** Value of the longest prefix of radix digits. *)
Fixpoint parse_digits (radix : Z) (acc : Z) (s : jsstring) : Z :=
  match s with
  | [] => acc
  | c :: r =>
      match digit_value radix c with
      | Some d => parse_digits radix (acc * radix + d)%Z r
      | None => acc
      end
  end.

(** [parseInt(s)] without a radix argument: leading blanks are skipped, one
    sign is read, a [0x]/[0X] prefix selects radix 16, and the longest
    prefix of digits is the value; no digit at all gives [NaN].  Anything
    after the digits is ignored. *)
Definition parseInt (s : jsstring) : number :=
  let s0 := trimStart s in
  let '(sign, s1) :=
    match s0 with
    | c :: r =>
        if c =? 0x2D then ((-1)%Z, r)
        else if c =? 0x2B then (1%Z, r)
        else (1%Z, s0)
    | [] => (1%Z, s0)
    end in
  let '(radix, s2) :=
    match s1 with
    | c0 :: c1 :: r =>
        if (c0 =? 0x30) && ((c1 =? 0x78) || (c1 =? 0x58)) then (16%Z, r)
        else (10%Z, s1)
    | _ => (10%Z, s1)
    end in
  match s2 with
  | c :: _ =>
      match digit_value radix c with
      | Some _ => Num (sign * parse_digits radix 0 s2)
      | None => NaN
      end
  | [] => NaN
  end.

(** [x - 1] on numbers. *)
Definition minus_one (x : number) : number :=
  match x with
  | NaN => NaN
  | Num z => Num (z - 1)
  end.

(** ** Data of the handler *)

(** One match of [search.messages]; the handler reads [text] and
    [permalink] only. *)
Record MessageHit : Type := { text : jsstring; permalink : jsstring }.

(** [searchResponse.messages.matches], either level possibly absent. *)
Record search_matches : Type := { matches : option (list MessageHit) }.
Record search_response : Type := { messages : option search_matches }.

(** One entry of the [messages] array sent to the completion service. *)
Record chat_message : Type := { role : jsstring; content : jsstring }.

(** One message of [conversations.history] ([m.user], [m.text]). *)
Record history_message : Type := { user : option jsstring; h_text : jsstring }.

(** One message of [conversations.replies] ([m.bot_id], [m.text]). *)
Record thread_message : Type := { bot_id : option jsstring; t_text : jsstring }.

(** The thread context ([threadContext.channel_id]). *)
Record thread_context : Type := { channel_id : jsstring }.

(** The incoming [message]. *)
Record user_message : Type :=
  { channel : jsstring; thread_ts : jsstring; msg_text : jsstring }.

(** [arr[index]] for a number index: [undefined] (here [None]) outside
    the array. *)
Definition array_get {A : Type} (arr : list A) (index : number) : option A :=
  match index with
  | NaN => None
  | Num z => if (z <? 0)%Z then None else nth_error arr (Z.to_nat z)
  end.

(** A string used as a condition is true when it is present and not empty. *)
Definition truthy (o : option jsstring) : bool :=
  match o with
  | Some (_ :: _) => true
  | _ => false
  end.

(** ** Exceptions *)

(** A thrown value: a Slack Web API error carries [e.data.error]; a
    [TypeError] of the engine and any other error have no [data]. *)
Inductive js_error : Type :=
| PlatformError (error : jsstring)
| TypeError
| OtherError (description : jsstring).

Inductive outcome (A : Type) : Type :=
| Normal (a : A)
| Thrown (e : js_error).

Arguments Normal {A} a.
Arguments Thrown {A} e.

(** ** The plain object used as a map ([uniqueResults])

    The own properties are kept in creation order.  Three facts of the
    language matter for an object literal [{}] indexed by arbitrary
    strings:
    - assigning to the key [__proto__] runs the inherited setter, which
      replaces the prototype and creates no own property;
    - [o.hasOwnProperty] is found on the prototype chain unless the object
      has an own property of that name, whose value (a message) cannot be
      called;
    - [Object.values] lists the properties whose key is an array index
      first, by increasing index, then the others in creation order. *)

Definition props := list (jsstring * MessageHit).

Definition has_own (o : props) (k : jsstring) : bool :=
  existsb (fun p => jsstring_eqb (fst p) k) o.

(** [o.hasOwnProperty(k)]. *)
Definition call_hasOwnProperty (o : props) (k : jsstring) : outcome bool :=
  if has_own o (js "hasOwnProperty") then Thrown TypeError
  else Normal (has_own o k).

Fixpoint replace_own (o : props) (k : jsstring) (v : MessageHit) : props :=
  match o with
  | [] => []
  | (k', v') :: r =>
      if jsstring_eqb k' k then (k', v) :: r else (k', v') :: replace_own r k v
  end.

(** [o[k] = v]. *)
Definition set_property (o : props) (k : jsstring) (v : MessageHit) : props :=
  if jsstring_eqb k (js "__proto__") then o
  else if has_own o k then replace_own o k v
  else o ++ [(k, v)].

(** Array index: the canonical decimal form of an integer below [2^32 - 1]. *)
Definition array_index (k : jsstring) : option N :=
  match k with
  | [] => None
  | c :: r =>
      if forallb is_digit k
         && (negb (c =? 0x30) || match r with [] => true | _ :: _ => false end)
      then
        let v := fold_left (fun acc d => acc * 10 + (d - 0x30)) k 0 in
        if v <=? 4294967294 then Some v else None
      else None
  end.

Fixpoint index_props (o : props) : list (N * MessageHit) :=
  match o with
  | [] => []
  | (k, v) :: r =>
      match array_index k with
      | Some i => (i, v) :: index_props r
      | None => index_props r
      end
  end.

Fixpoint string_props (o : props) : list MessageHit :=
  match o with
  | [] => []
  | (k, v) :: r =>
      match array_index k with
      | Some _ => string_props r
      | None => v :: string_props r
      end
  end.

Fixpoint insert_by_index (p : N * MessageHit) (l : list (N * MessageHit))
  : list (N * MessageHit) :=
  match l with
  | [] => [p]
  | q :: r => if fst p <=? fst q then p :: l else q :: insert_by_index p r
  end.

Definition sort_by_index (l : list (N * MessageHit)) : list (N * MessageHit) :=
  fold_right insert_by_index [] l.

(** [Object.values(o)]. *)
Definition Object_values (o : props) : list MessageHit :=
  map snd (sort_by_index (index_props o)) ++ string_props o.

(** ** Effects of the handler

    The handler talks to Slack and to the completion service through
    awaited calls, each of which may reject, and writes to the logs.  A
    run is a function of the [world], which answers every request given
    the events so far; the handler threads the list of events. *)

Inductive request : Type :=
| setTitle (title : jsstring)
| setStatus (status : jsstring)
| say (txt : jsstring)
| getThreadContext
| conversations_history (chan : jsstring) (limit : N)
| conversations_join (chan : jsstring)
| conversations_replies (chan ts oldest : jsstring)
| chat_completions_create (model : jsstring) (n : N) (msgs : list chat_message)
| search_messages (query : jsstring) (count : N) (token : jsstring)
    (search_exclude_bots : bool).

(** What an awaited call resolves to: for the completion service the
    text [choices[0].message.content]. *)
Definition reply_type (q : request) : Type :=
  match q with
  | setTitle _ | setStatus _ | say _ | conversations_join _ => unit
  | getThreadContext => thread_context
  | conversations_history _ _ => list history_message
  | conversations_replies _ _ _ => list thread_message
  | chat_completions_create _ _ _ => jsstring
  | search_messages _ _ _ _ => search_response
  end.

Inductive log_entry : Type :=
| logger_error (e : js_error)
| logger_info (line : jsstring)
| console_log (args : list jsstring).

Inductive event : Type :=
| Called (q : request) (r : outcome (reply_type q))
| Logged (l : log_entry).

Definition trace := list event.

Definition world_type := trace -> forall q : request, outcome (reply_type q).

(** Whether a step of the handler ran into a [return] or reached its end. *)
Inductive completion : Type :=
| Returned
| FellThrough.

Definition M (A : Type) : Type := trace -> trace * outcome A.

Definition ret {A : Type} (a : A) : M A := fun h => (h, Normal a).

Definition throw {A : Type} (e : js_error) : M A := fun h => (h, Thrown e).

Definition bind {A B : Type} (m : M A) (k : A -> M B) : M B :=
  fun h =>
    match m h with
    | (h', Normal a) => k a h'
    | (h', Thrown e) => (h', Thrown e)
    end.

(** [try { m } catch (e) { handler e }]. *)
Definition try_catch {A : Type} (m : M A) (handler : js_error -> M A) : M A :=
  fun h =>
    match m h with
    | (h', Normal a) => (h', Normal a)
    | (h', Thrown e) => handler e h'
    end.

Definition log (l : log_entry) : M unit := fun h => (h ++ [Logged l], Normal tt).

Definition lift {A : Type} (o : outcome A) : M A := fun h => (h, o).

Declare Scope handler_scope.
Delimit Scope handler_scope with handler.
Notation "x <- c1 ;; c2" := (bind c1 (fun x => c2))
  (at level 61, c1 at next level, right associativity) : handler_scope.
Notation "c1 ;; c2" := (bind c1 (fun _ => c2))
  (at level 61, right associativity) : handler_scope.

(** ** Constants of [app.js] *)

Definition DEFAULT_SYSTEM_CONTENT : jsstring :=
  js "You're an assistant in a Slack workspace.
Users in the workspace will ask you to help them write something or to think better about a specific topic.
You'll respond to those questions in a professional way.
When you include markdown text, convert them to Slack compatible ones.
When a prompt has Slack's special syntax like <@USER_ID> or <#CHANNEL_ID>, you must keep them as-is in your response.".

Definition SUMMARIZE_PROMPT : jsstring :=
  js "Assistant, please summarize the activity in this channel!".

Definition FUZZY_PREFIX : jsstring := js "Fuzzy search".

Definition USAGE_HINT : jsstring :=
  js "検索ワードを指定してください。例: Fuzzy search: 進捗報告".

Definition NO_RELEVANT : jsstring :=
  js "該当するメッセージが見つかりませんでした。".

Definition SOMETHING_WRONG : jsstring := js "Sorry, something went wrong!".

Definition MODEL : jsstring := js "gpt-4o-mini".

Definition is_colon (c : code_unit) : bool := c =? 0x3A.
Definition is_comma (c : code_unit) : bool := c =? 0x2C.
Definition is_newline_or_comma (c : code_unit) : bool := (c =? 0x0A) || (c =? 0x2C).

Definition system_message : chat_message :=
  {| role := js "system"; content := DEFAULT_SYSTEM_CONTENT |}.

Definition user_prompt (p : jsstring) : chat_message :=
  {| role := js "user"; content := p |}.

(** ** Pure steps of the fuzzy search *)

(** The expansion prompt ([prompt]). *)
Definition prompt (query : jsstring) : jsstring :=
  js "
          ユーザーはSlackで「"
  ++ query ++
  js "」に関する過去のメッセージを探している。
          この検索を助けるために、以下のような検索ワードのバリエーションを生成し、Slackのsearch.messagesメソッドで適切に活用できる形式で出力せよ。

          - 「"
  ++ query ++
  js "」は単語かもしれませんし、文章（質問文）かもしれません。その意図を読み取り、適切な単語の同義語、略語、英語表記を考慮し、関連する検索ワードを生成する。
          - Slackの検索演算子を適切に適用し、キーワードと組み合わせた検索クエリを作成する。
          - 以下の検索演算子を考慮する：
      
            - OR を使うと、いずれかの単語を含むメッセージを検索できる。
          - 検索演算子は不必要に使う必要はない。ユーザーの要求に合わせて適切に判断せよ
          - 出力は「キーワードと検索演算子のみ」とし、説明文や番号を含めない。
          - キーワードをスペース区切りで出力したものをクエリとし、各クエリをカンマ区切りで出力してください
          - 検索ワードと検索演算子を組み合わせた具体的なクエリを10個以内で列挙せよ。
          - ユーザーの要求に沿った結果が効率よく出るように、OR検索を使って適切に探せるようにしてください。OR検索を多用しすぎると、ユーザーの要求とは違う結果を拾ってしまうので、そこを考慮してください
          - クエリの作成後、「"
  ++ query ++
  js "」について探せるクエリになっているかどうか、再評価して、最終的な出力をしてください

          ### **期待する出力例**
          videojs-overlay フルスクリーン from:@ItoMadoka  
          videojs-overlay fullscreen in:#onboarding-itomado  
          videojs-overlay フルスクリーン 検証 after:2024-01-01  
          videojs-overlay fullscreen has:link
          
        ".

(** [content.split(/[\n,]+/).map(k => k.trim()).filter(k => k)]. *)
Definition parse_keywords (content : jsstring) : list jsstring :=
  filter (fun k => negb (jsstring_eqb k []))
    (map (fun k => trim k) (split_runs is_newline_or_comma content)).

(** [allResults.map((msg, index) => `${index + 1}: ${msg.text}`)]. *)
Fixpoint numbered_from (index : N) (allResults : list MessageHit) : list jsstring :=
  match allResults with
  | [] => []
  | msg :: r =>
      (number_toString (index + 1) ++ js ": " ++ text msg) :: numbered_from (index + 1) r
  end.

(** The ranking prompt ([evaluationPrompt]). *)
Definition evaluationPrompt (query : jsstring) (allResults : list MessageHit)
  : jsstring :=
  js "
            以下のメッセージリストから、クエリ「"
  ++ query ++
  js "」に最も関連する内容を選択し、それらのインデックスを関連性の高い順に列挙してください。重複する内容や関連性の低いメッセージは除外してください。出力はインデックスのみにしてください。Fuzzy search:という単語が含まれるものを除外してください
            再度言いますが、内容が重複するものを除外してください。
            クエリ: 「"
  ++ query ++
  js "」

            メッセージリスト:
            "
  ++ join (js "
") (numbered_from 0 allResults) ++
  js "

            期待する出力形式:
            1, 3, 5, ...
          ".

(** [index => !isNaN(index) && index >= 0 && index < allResults.length]. *)
Definition valid_index (len : nat) (index : number) : bool :=
  match index with
  | NaN => false
  | Num z => (0 <=? z)%Z && (z <? Z.of_nat len)%Z
  end.

(** [content.split(',').map(index => parseInt(index.trim()) - 1).filter(...)]. *)
Definition evaluatedIndexes (content : jsstring) (len : nat) : list number :=
  filter (valid_index len)
    (map (fun index => minus_one (parseInt (trim index))) (split_on is_comma content)).

(** The [forEach] that fills [uniqueResults]. *)
Fixpoint fill_unique (allResults : list MessageHit) (indexes : list number)
  (uniqueResults : props) : outcome props :=
  match indexes with
  | [] => Normal uniqueResults
  | index :: rest =>
      match array_get allResults index with
      | None => fill_unique allResults rest uniqueResults
      | Some msg =>
          match call_hasOwnProperty uniqueResults (permalink msg) with
          | Thrown e => Thrown e
          | Normal true => fill_unique allResults rest uniqueResults
          | Normal false =>
              fill_unique allResults rest
                (set_property uniqueResults (permalink msg) msg)
          end
      end
  end.

(** [Object.values(uniqueResults).slice(0, 15)]. *)
Definition results_of (allResults : list MessageHit) (indexes : list number)
  : outcome (list MessageHit) :=
  match fill_unique allResults indexes [] with
  | Normal uniqueResults => Normal (firstn 15 (Object_values uniqueResults))
  | Thrown e => Thrown e
  end.

(** One entry of the answer:
    [`${idx + 1}. ${msg.text.substring(0, 30)}… → <${msg.permalink}|リンク>`]. *)
Definition result_line (idx : N) (msg : MessageHit) : jsstring :=
  number_toString (idx + 1) ++ js ". " ++ substring0 (text msg) 30
  ++ js "… → <" ++ permalink msg ++ js "|リンク>".

Fixpoint result_lines_from (idx : N) (results : list MessageHit) : list jsstring :=
  match results with
  | [] => []
  | msg :: r => result_line idx msg :: result_lines_from (idx + 1) r
  end.

(** [results.map(...).join('\n')]. *)
Definition responseText (results : list MessageHit) : jsstring :=
  join (js "
") (result_lines_from 0 results).

(** ** The handler [userMessage] *)

Section Handler.

(** The environment: the answers of Slack and of the completion service,
    and the user token read from the process environment. *)
Variable world : world_type.
Variable SLACK_USER_TOKEN : jsstring.

Local Open Scope handler_scope.

(** An awaited call: the world answers, the event is recorded, and a
    rejection is thrown at the [await]. *)
Definition call (q : request) : M (reply_type q) :=
  fun h => let r := world h q in (h ++ [Called q r], r).

(** Scenario 1, the channel history with its fallback: when the app is
    not in the channel it joins and asks again with a limit of 10.
    [None] is [channelHistory] left [undefined]. *)
Definition fetch_channelHistory (threadContext : thread_context)
  : M (option (list history_message)) :=
  try_catch
    (channelHistory <- call (conversations_history (channel_id threadContext) 50) ;;
     ret (Some channelHistory))
    (fun e =>
       match e with
       | PlatformError error =>
           if jsstring_eqb error (js "not_in_channel") then
             call (conversations_join (channel_id threadContext)) ;;
             channelHistory <- call (conversations_history (channel_id threadContext) 10) ;;
             ret (Some channelHistory)
           else
             log (logger_error e) ;;
             ret None
       | _ => throw TypeError
       end).

(** [for (const m of channelHistory.messages.reverse()) ...]. *)
Definition summary_prompt (threadContext : thread_context)
  (channelHistory : list history_message) : jsstring :=
  fold_left
    (fun llmPrompt m =>
       match user m with
       | Some u =>
           if truthy (user m) then
             llmPrompt ++ js "
<@" ++ u ++ js "> says: " ++ h_text m
           else llmPrompt
       | None => llmPrompt
       end)
    (rev channelHistory)
    (js "Please generate a brief summary of the following messages from Slack channel <#"
     ++ channel_id threadContext ++ js ">: 出力は必ず日本語でお願いします！").

Definition summarize_channel : M unit :=
  threadContext <- call getThreadContext ;;
  channelHistory <- fetch_channelHistory threadContext ;;
  match channelHistory with
  | None => throw TypeError
  | Some history =>
      let llmPrompt := summary_prompt threadContext history in
      llmResponse <-
        call (chat_completions_create MODEL 1 [system_message; user_prompt llmPrompt]) ;;
      call (say llmResponse)
  end.

(** One turn of the search loop: the [try] with its [catch]. *)
Definition search_one (keyword : jsstring) (allResults : list MessageHit)
  : M (list MessageHit) :=
  try_catch
    (searchResponse <- call (search_messages keyword 20 SLACK_USER_TOKEN true) ;;
     match messages searchResponse with
     | Some msgs =>
         match matches msgs with
         | Some found =>
             log (console_log [js "検索クエリ："; keyword]) ;;
             log (logger_info
                    (js "検索成功: " ++ number_toString (N.of_nat (length found))
                     ++ js " 件のメッセージが見つかりました。")) ;;
             ret (allResults ++ found)
         | None =>
             log (logger_info (js "検索成功: 0 件のメッセージが見つかりました。")) ;;
             ret allResults
         end
     | None =>
         log (logger_info (js "検索成功: 0 件のメッセージが見つかりました。")) ;;
         ret allResults
     end)
    (fun error => log (logger_error error) ;; ret allResults).

(** [for (const keyword of keywords) { ... }]. *)
Fixpoint search_all (keywords : list jsstring) (allResults : list MessageHit)
  : M (list MessageHit) :=
  match keywords with
  | [] => ret allResults
  | keyword :: rest =>
      allResults' <- search_one keyword allResults ;;
      search_all rest allResults'
  end.

(** The body of [if (allResults.length > 0) { ... }]: ranking,
    deduplication and the answer; it always ends in [return]. *)
Definition rank_and_present (query : jsstring) (allResults : list MessageHit)
  : M completion :=
  llmResponseEvaluation <-
    call (chat_completions_create MODEL 1
            [system_message; user_prompt (evaluationPrompt query allResults)]) ;;
  log (console_log [js "評価の回答: "; llmResponseEvaluation]) ;;
  results <-
    lift (results_of allResults
            (evaluatedIndexes llmResponseEvaluation (length allResults))) ;;
  if (length results =? 0)%nat then
    call (say NO_RELEVANT) ;;
    ret Returned
  else
    call (say (responseText results)) ;;
    ret Returned.

(** The searches and what follows them. *)
Definition search_and_rank (query : jsstring) (keywords : list jsstring)
  : M completion :=
  allResults <- search_all keywords [] ;;
  if (0 <? length allResults)%nat then rank_and_present query allResults
  else ret FellThrough.

(** The fuzzy search once [query] is known: expansion, then the
    searches and the ranking. *)
Definition expand_and_search (query : jsstring) : M completion :=
  llmResponseKeywords <-
    call (chat_completions_create MODEL 1 [system_message; user_prompt (prompt query)]) ;;
  let keywords := parse_keywords llmResponseKeywords in
  log (console_log (js "キーワード: " :: keywords)) ;;
  call (say (js "キーワード" ++ join (js ",") keywords)) ;;
  search_and_rank query keywords.

(** The body of [if (message.text.startsWith('Fuzzy search')) { ... }]. *)
Definition fuzzy_search (txt : jsstring) : M completion :=
  let parts := split_on is_colon txt in
  if (length parts <? 2)%nat then
    call (say USAGE_HINT) ;;
    ret Returned
  else
    let query := trim (nth 1 parts []) in
    expand_and_search query.

(** Scenario 2: the thread history goes to the completion service. *)
Definition answer_from_thread (message : user_message) : M unit :=
  thread <-
    call (conversations_replies (channel message) (thread_ts message) (thread_ts message)) ;;
  let userMessage := user_prompt (msg_text message) in
  let threadHistory :=
    map (fun m =>
           {| role := if truthy (bot_id m) then js "assistant" else js "user";
              content := t_text m |}) thread in
  let msgs := system_message :: threadHistory ++ [userMessage] in
  llmResponse <- call (chat_completions_create MODEL 1 msgs) ;;
  call (say llmResponse).

Definition userMessage (message : user_message) : M unit :=
  try_catch
    (call (setTitle (msg_text message)) ;;
     call (setStatus (js "is typing..")) ;;
     if jsstring_eqb (msg_text message) SUMMARIZE_PROMPT then summarize_channel
     else
       c <- (if startsWith (msg_text message) FUZZY_PREFIX
             then fuzzy_search (msg_text message)
             else ret FellThrough) ;;
       match c with
       | Returned => ret tt
       | FellThrough => answer_from_thread message
       end)
    (fun e =>
       log (logger_error e) ;;
       call (say SOMETHING_WRONG)).

End Handler.

(** ** Reading a trace *)

(** The requests of a trace, in order. *)
Fixpoint requests (h : trace) : list request :=
  match h with
  | [] => []
  | Called q _ :: r => q :: requests r
  | Logged _ :: r => requests r
  end.

(** The message lists sent to the completion service, in order. *)
Definition completion_calls (h : trace) : list (list chat_message) :=
  flat_map
    (fun q => match q with chat_completions_create _ _ msgs => [msgs] | _ => [] end)
    (requests h).

(** The texts posted to the user, in order. *)
Definition said (h : trace) : list jsstring :=
  flat_map (fun q => match q with say t => [t] | _ => [] end) (requests h).

(** The searches issued, each with its limit. *)
Definition search_calls (h : trace) : list (jsstring * N) :=
  flat_map
    (fun q => match q with search_messages k c _ _ => [(k, c)] | _ => [] end)
    (requests h).

(** The channels the app asked to join. *)
Definition join_calls (h : trace) : list jsstring :=
  flat_map (fun q => match q with conversations_join c => [c] | _ => [] end)
    (requests h).

(** The channel-history requests, each with its limit. *)
Definition history_calls (h : trace) : list (jsstring * N) :=
  flat_map
    (fun q => match q with conversations_history c l => [(c, l)] | _ => [] end)
    (requests h).

(** What a search contributed to the pool: its matches when it resolved
    with some, nothing when it rejected or carried none. *)
Definition hits_of_reply (r : outcome search_response) : list MessageHit :=
  match r with
  | Normal {| messages := Some {| matches := Some found |} |} => found
  | _ => []
  end.

(** The searches of a trace, each query with its reply, in order. *)
Fixpoint searches (h : trace) : list (jsstring * outcome search_response) :=
  match h with
  | [] => []
  | Called (search_messages k _ _ _) r :: rest => (k, r) :: searches rest
  | _ :: rest => searches rest
  end.

(** The pool a sequence of searches adds up to. *)
Definition pool_of (l : list (jsstring * outcome search_response)) : list MessageHit :=
  concat (map (fun p => hits_of_reply (snd p)) l).

(** ** Sample environments *)

(** A world in which Slack accepts every post, the thread and the channel
    are empty, the completion service answers [expansion] first and
    [later] afterwards, and the searches are answered by [found]. *)
Definition sample_world (expansion later : jsstring)
  (found : jsstring -> outcome search_response) : world_type :=
  fun h q =>
    match q return outcome (reply_type q) with
    | setTitle _ | setStatus _ | say _ | conversations_join _ => Normal tt
    | getThreadContext => Normal {| channel_id := js "C0123" |}
    | conversations_history _ _ => Normal []
    | conversations_replies _ _ _ => Normal []
    | chat_completions_create _ _ _ =>
        match completion_calls h with
        | [] => Normal expansion
        | _ :: _ => Normal later
        end
    | search_messages k _ _ _ => found k
    end.

(** The same world, except that a channel history asked with limit 50 is
    rejected because the app is not in the channel. *)
Definition recovering_world : world_type :=
  fun h q =>
    match q return outcome (reply_type q) with
    | conversations_history _ 50 => Thrown (PlatformError (js "not_in_channel"))
    | other => sample_world [] [] (fun _ => Thrown TypeError) h other
    end.

Definition sample_message (txt : jsstring) : user_message :=
  {| channel := js "D0456"; thread_ts := js "1700000000.000100"; msg_text := txt |}.

(** Sixteen hits with pairwise different permalinks. *)
Definition sixteen_hits : list MessageHit :=
  map (fun i =>
         {| text := js "message " ++ number_toString i;
            permalink := js "https://x.slack.com/archives/C0123/p" ++ number_toString i |})
    [1; 2; 3; 4; 5; 6; 7; 8; 9; 10; 11; 12; 13; 14; 15; 16].

(** ** The steps as the specification words them

    Each definition below is written from the description of the step,
    to be compared with the definition taken from the code. *)

(** Expansion parsing: split at every newline and every comma, trim each
    token, discard the empty ones. *)
Definition spec_keywords (content : jsstring) : list jsstring :=
  filter (fun k => negb (jsstring_eqb k []))
    (map trim (split_on is_newline_or_comma content)).

(** Index parsing.  The blanks are the white space and the line
    terminators of ECMAScript. *)
Definition spec_blank (c : code_unit) : bool :=
  existsb (N.eqb c)
    [0x09; 0x0A; 0x0B; 0x0C; 0x0D; 0x20; 0xA0; 0x1680;
     0x2000; 0x2001; 0x2002; 0x2003; 0x2004; 0x2005; 0x2006; 0x2007;
     0x2008; 0x2009; 0x200A; 0x2028; 0x2029; 0x202F; 0x205F; 0x3000; 0xFEFF].

Fixpoint drop_blanks (s : jsstring) : jsstring :=
  match s with
  | [] => []
  | c :: r => if spec_blank c then drop_blanks r else s
  end.

(** A token without the blanks at its two ends. *)
Definition strip_blanks (s : jsstring) : jsstring :=
  rev (drop_blanks (rev (drop_blanks s))).

(** The tokens between the commas of a text; [cur] holds, last code unit
    first, the token being read. *)
Fixpoint tokens_from (cur : jsstring) (s : jsstring) : list jsstring :=
  match s with
  | [] => [rev cur]
  | c :: r => if c =? 0x2C then rev cur :: tokens_from [] r else tokens_from (c :: cur) r
  end.

Definition comma_tokens (s : jsstring) : list jsstring := tokens_from [] s.

Definition decimal_digit (c : code_unit) : option Z :=
  if (0x30 <=? c) && (c <=? 0x39) then Some (Z.of_N c - 48)%Z else None.

Definition hex_digit (c : code_unit) : option Z :=
  if (0x30 <=? c) && (c <=? 0x39) then Some (Z.of_N c - 48)%Z
  else if (0x61 <=? c) && (c <=? 0x66) then Some (Z.of_N c - 87)%Z
  else if (0x41 <=? c) && (c <=? 0x46) then Some (Z.of_N c - 55)%Z
  else None.

(** The digits at the start of a text, up to the first code unit that is
    not a digit. *)
Fixpoint digit_run (digit : code_unit -> option Z) (s : jsstring) : list Z :=
  match s with
  | [] => []
  | c :: r =>
      match digit c with
      | Some d => d :: digit_run digit r
      | None => []
      end
  end.

Definition positional (base : Z) (ds : list Z) : Z :=
  fold_left (fun acc d => acc * base + d)%Z ds 0%Z.

(** The value of the digits at the start of a text, when there is one. *)
Definition run_value (digit : code_unit -> option Z) (base : Z) (s : jsstring)
  : option Z :=
  match digit_run digit s with
  | [] => None
  | ds => Some (positional base ds)
  end.

(** Hexadecimal digits after [0x] or [0X], decimal digits otherwise. *)
Definition unsigned_integer (s : jsstring) : option Z :=
  match s with
  | c0 :: c1 :: r =>
      if (c0 =? 0x30) && ((c1 =? 0x78) || (c1 =? 0x58)) then run_value hex_digit 16 r
      else run_value decimal_digit 10 s
  | _ => run_value decimal_digit 10 s
  end.

(** The integer that a token starts with: blanks, one optional sign, then
    the digits; what follows the digits is not looked at. *)
Definition leading_integer (s : jsstring) : option Z :=
  match drop_blanks s with
  | [] => None
  | c :: r =>
      if c =? 0x2D then option_map Z.opp (unsigned_integer r)
      else if c =? 0x2B then unsigned_integer r
      else unsigned_integer (c :: r)
  end.

(** The index given by a 1-based value: kept, 0-based, when the value lies
    in [[1, len]]. *)
Definition index_of_value (len : nat) (value : option Z) : list number :=
  match value with
  | Some v => if ((1 <=? v) && (v <=? Z.of_nat len))%Z then [Num (v - 1)] else []
  | None => []
  end.

(** Index parsing on the integer that each trimmed token starts with. *)
Definition spec_index (len : nat) (tok : jsstring) : list number :=
  index_of_value len (leading_integer (strip_blanks tok)).

Definition spec_indices (content : jsstring) (len : nat) : list number :=
  flat_map (spec_index len) (comma_tokens content).

(** Index parsing on numeric tokens only: the trimmed token has to be an
    integer numeral, that is one optional sign and decimal digits with
    nothing after them. *)
Definition integer_numeral (s : jsstring) : option Z :=
  let digits_only r :=
    if (length (digit_run decimal_digit r) =? length r)%nat
    then run_value decimal_digit 10 r else None in
  match s with
  | [] => None
  | c :: r =>
      if c =? 0x2D then option_map Z.opp (digits_only r)
      else if c =? 0x2B then digits_only r
      else digits_only s
  end.

Definition numeric_index (len : nat) (tok : jsstring) : list number :=
  index_of_value len (integer_numeral (strip_blanks tok)).

Definition spec_numeric_indices (content : jsstring) (len : nat) : list number :=
  flat_map (numeric_index len) (comma_tokens content).

(** Deduplication: walk the hits in order and keep one only if its
    permalink has not been kept already. *)
Fixpoint keep_first (kept : list jsstring) (hits : list MessageHit) : list MessageHit :=
  match hits with
  | [] => []
  | h :: r =>
      if existsb (jsstring_eqb (permalink h)) kept then keep_first kept r
      else h :: keep_first (permalink h :: kept) r
  end.

(** The hits an index sequence refers to, in the order of the sequence. *)
Definition referenced (allResults : list MessageHit) (indexes : list number)
  : list MessageHit :=
  flat_map
    (fun index =>
       match array_get allResults index with
       | Some msg => [msg]
       | None => []
       end)
    indexes.

(** A permalink that behaves as a plain map key of an object literal. *)
Definition plain_key (k : jsstring) : bool :=
  match array_index k with
  | Some _ => false
  | None => negb (jsstring_eqb k (js "__proto__")) && negb (jsstring_eqb k (js "hasOwnProperty"))
  end.

(** Presentation with the ellipsis only on a shortened text. *)
Definition spec_result_line (idx : N) (msg : MessageHit) : jsstring :=
  number_toString (idx + 1) ++ js ". " ++ substring0 (text msg) 30
  ++ (if (30 <? length (text msg))%nat then js "…" else [])
  ++ js " → <" ++ permalink msg ++ js "|リンク>".

Fixpoint spec_result_lines_from (idx : N) (results : list MessageHit) : list jsstring :=
  match results with
  | [] => []
  | msg :: r => spec_result_line idx msg :: spec_result_lines_from (idx + 1) r
  end.

Definition spec_responseText (results : list MessageHit) : jsstring :=
  join (js "
") (spec_result_lines_from 0 results).

(** ** Auxiliary notions *)

(** What the code makes of one token of the ranking: the 0-based index,
    when the token is kept. *)
Definition token_index (len : nat) (tok : jsstring) : option Z :=
  match parseInt (trim tok) with
  | NaN => None
  | Num v => if ((1 <=? v) && (v <=? Z.of_nat len))%Z then Some (v - 1)%Z else None
  end.

(** A text with no blank at either end, the empty text included. *)
Definition trimmed (s : jsstring) : bool :=
  match s with
  | [] => true
  | c :: _ => negb (isWhiteSpace c)
  end
  && match rev s with
     | [] => true
     | c :: _ => negb (isWhiteSpace c)
     end.

(** The tokens that survive trimming and the removal of empty ones. *)
Definition kept_tokens (l : list jsstring) : list jsstring :=
  filter (fun k => negb (jsstring_eqb k [])) (map (fun k => trim k) l).

(** Tokens that are clean (no separator inside, not empty, nothing to
    trim) come back unchanged from a comma-separated response. *)
Definition clean_token (tok : jsstring) : bool :=
  forallb (fun c => negb (is_newline_or_comma c)) tok
  && negb (jsstring_eqb tok [])
  && jsstring_eqb (trim tok) tok.

(** The text of a result entry, for a text already reduced to [snippet]. *)
Definition entry_of (position : N) (snippet link : jsstring) : jsstring :=
  number_toString position ++ js ". " ++ snippet ++ js "… → <" ++ link ++ js "|リンク>".

(** What holds of [uniqueResults] all along the loop: every property is a
    message of the pool, referred to by an index, stored under its own
    permalink, and no key occurs twice. *)
Definition unique_inv (allResults hits : list MessageHit) (o : props) : Prop :=
  Forall (fun p => fst p = permalink (snd p) /\ In (snd p) allResults /\ In (snd p) hits) o
  /\ NoDup (map fst o).

(** The properties that a list of hits gives when each is stored under
    its permalink. *)
Definition as_props (hits : list MessageHit) : props :=
  map (fun h => (permalink h, h)) hits.

(** A computation only ever appends to the trace. *)
Definition extends {A : Type} (m : M A) : Prop :=
  forall h, exists h' out, m h = (h ++ h', out).

(** ** The thread handlers

    [threadStarted] and [threadContextChanged] talk to Slack through
    [say], [saveThreadContext] and [setSuggestedPrompts] only, each of
    which resolves to nothing or rejects; they are modelled with the same
    kind of trace as [userMessage], over their own requests. *)

Module Thread.

(** One suggested prompt ([title], [message]). *)
Record suggested_prompt : Type := { title : jsstring; message : jsstring }.

(** [event.assistant_thread.context]; the channel is absent when the
    container was not opened in a channel. *)
Record context : Type := { channel_id : option jsstring }.

Inductive request : Type :=
| say (txt : jsstring)
| saveThreadContext
| setSuggestedPrompts (prompts : list suggested_prompt) (heading : jsstring).

Inductive event : Type :=
| Called (q : request) (r : outcome unit)
| Logged (e : js_error).

Definition world_type := list event -> request -> outcome unit.

Definition T (A : Type) : Type := list event -> list event * outcome A.

Definition ret {A : Type} (a : A) : T A := fun h => (h, Normal a).

Definition bind {A B : Type} (m : T A) (k : A -> T B) : T B :=
  fun h =>
    match m h with
    | (h', Normal a) => k a h'
    | (h', Thrown e) => (h', Thrown e)
    end.

Definition try_catch {A : Type} (m : T A) (handler : js_error -> T A) : T A :=
  fun h =>
    match m h with
    | (h', Normal a) => (h', Normal a)
    | (h', Thrown e) => handler e h'
    end.

Definition call (world : world_type) (q : request) : T unit :=
  fun h => let r := world h q in (h ++ [Called q r], r).

(** [logger.error(e)]. *)
Definition logger_error (e : js_error) : T unit :=
  fun h => (h ++ [Logged e], Normal tt).

Definition GREETING : jsstring := js "Hi, how can I help?".

Definition HEADING : jsstring := js "Here are some suggested options:".

Definition generic_prompt : suggested_prompt :=
  {| title := js "This is a suggested prompt";
     message :=
       js "When a user clicks a prompt, the resulting prompt message text can be passed "
       ++ js "directly to your LLM for processing.

Assistant, please create some helpful prompts "
       ++ js "I can provide to my users." |}.

Definition summarize_prompt : suggested_prompt :=
  {| title := js "Summarize channel";
     message := js "Assistant, please summarize the activity in this channel!" |}.

Definition fuzzy_prompt : suggested_prompt :=
  {| title := js "Fuzzy search";
     message := js "Assistant, please perform a fuzzy search for the following term!" |}.

(** The [prompts] array once both [push]es are done. *)
Definition prompts_for (ctx : context) : list suggested_prompt :=
  let prompts := [generic_prompt] in
  let prompts :=
    if truthy (channel_id ctx) then prompts ++ [summarize_prompt] else prompts in
  prompts ++ [fuzzy_prompt].

Definition threadStarted (world : world_type) (ctx : context) : T unit :=
  try_catch
    (bind (call world (say GREETING)) (fun _ =>
     bind (call world saveThreadContext) (fun _ =>
     call world (setSuggestedPrompts (prompts_for ctx) HEADING))))
    (fun e => logger_error e).

Definition threadContextChanged (world : world_type) : T unit :=
  try_catch (call world saveThreadContext) (fun e => logger_error e).

(** The requests of a trace, in order. *)
Fixpoint requests (h : list event) : list request :=
  match h with
  | [] => []
  | Called q _ :: r => q :: requests r
  | Logged _ :: r => requests r
  end.

End Thread.

(** ** Notions for the properties of the handlers *)

(** The [try] block of [userMessage] (lines 116 to 328). *)
Definition userMessage_body (world : world_type) (SLACK_USER_TOKEN : jsstring)
  (message : user_message) : M unit :=
  (call world (setTitle (msg_text message)) ;;
   call world (setStatus (js "is typing..")) ;;
   if jsstring_eqb (msg_text message) SUMMARIZE_PROMPT then summarize_channel world
   else
     c <- (if startsWith (msg_text message) FUZZY_PREFIX
           then fuzzy_search world SLACK_USER_TOKEN (msg_text message)
           else ret FellThrough) ;;
     match c with
     | Returned => ret tt
     | FellThrough => answer_from_thread world message
     end)%handler.

(** Every request a computation issues satisfies [P]. *)
Definition issues {A : Type} (P : request -> bool) (m : M A) : Prop :=
  forall h, exists h' out,
    m h = (h ++ h', out) /\ forallb P (requests h') = true.

(** A computation sends at most [n] requests to the completion service. *)
Definition at_most_completions {A : Type} (n : nat) (m : M A) : Prop :=
  forall h, exists h' out,
    m h = (h ++ h', out) /\ (length (completion_calls h') <= n)%nat.

(** A world in which no call is ever rejected. *)
Definition never_rejects (world : world_type) : Prop :=
  forall h q, exists a, world h q = Normal a.

Definition is_search (q : request) : bool :=
  match q with search_messages _ _ _ _ => true | _ => false end.

Definition is_channel_call (q : request) : bool :=
  match q with
  | conversations_history _ _ | conversations_join _ | getThreadContext => true
  | _ => false
  end.

Definition is_completion (q : request) : bool :=
  match q with chat_completions_create _ _ _ => true | _ => false end.

(** The line of the summary prompt for one message with a user. *)
Definition summary_line (m : history_message) : jsstring :=
  match user m with
  | Some u => js "
<@" ++ u ++ js "> says: " ++ h_text m
  | None => []
  end.

Definition summary_header (threadContext : thread_context) : jsstring :=
  js "Please generate a brief summary of the following messages from Slack channel <#"
  ++ channel_id threadContext ++ js ">: 出力は必ず日本語でお願いします！".

(** The messages sent to the completion service for a plain message. *)
Definition thread_messages (thread : list thread_message) (txt : jsstring)
  : list chat_message :=
  system_message
  :: map (fun m =>
            {| role := if truthy (bot_id m) then js "assistant" else js "user";
               content := t_text m |}) thread
  ++ [user_prompt txt].

(** What a message may trigger, by the scenario its text selects:
    [summary] tells that the text is the summary prompt, [fuzzy] that it
    starts with the fuzzy-search label. *)
Definition allowed_request (summary fuzzy : bool) (q : request) : bool :=
  if summary then negb (is_search q)
  else if fuzzy then negb (is_channel_call q)
  else negb (is_search q) && negb (is_channel_call q).

(** A fuzzy-search step that cannot reach the end of the block. *)
Definition never_falls_through (m : M completion) : Prop :=
  forall h, snd (m h) <> Normal FellThrough.

(** A fuzzy-search step that sends at most [n] requests to the completion
    service, and at most [nf] when it reaches the end of the block. *)
Definition completes (n nf : nat) (m : M completion) : Prop :=
  forall h, exists h' out,
    m h = (h ++ h', out)
    /\ (length (completion_calls h') <= n)%nat
    /\ (out = Normal FellThrough -> (length (completion_calls h') <= nf)%nat).

(** A code unit that cannot be part of a keyword's border or body. *)
Definition blank_or_separator (c : code_unit) : bool :=
  isWhiteSpace c || is_newline_or_comma c.

(** * Properties *)

(** ** Strings *)

Example js_literal_ascii : js "1, 3" = [0x31; 0x2C; 0x20; 0x33].
Proof. reflexivity. Qed.

Example js_literal_kana : js "リンク" = [0x30EA; 0x30F3; 0x30AF].
Proof. reflexivity. Qed.

Example split_colon_ex :
  split_on (N.eqb 0x3A) (js "Fuzzy search: foo: bar")
  = [js "Fuzzy search"; js " foo"; js " bar"].
Proof. reflexivity. Qed.

Example split_runs_ex :
  split_runs (fun c => (c =? 0x0A) || (c =? 0x2C)) (js ",a,,b c,")
  = [js ""; js "a"; js "b c"; js ""].
Proof. reflexivity. Qed.

Example trim_ex : trim (js "  a b 	") = js "a b".
Proof. reflexivity. Qed.

Example number_toString_ex :
  map number_toString [0; 7; 10; 15; 120] = map js ["0"; "7"; "10"; "15"; "120"]%string.
Proof. reflexivity. Qed.

Lemma jsstring_eqb_eq (a b : jsstring) : jsstring_eqb a b = true <-> a = b.
Proof.
  revert b; induction a as [|x a IH]; intros [|y b]; simpl; split; intros H;
    try reflexivity; try discriminate.
  - apply andb_true_iff in H as [Hx Hab].
    apply N.eqb_eq in Hx. apply IH in Hab. now subst.
  - injection H as -> ->. rewrite N.eqb_refl. now apply IH.
Qed.

Lemma jsstring_eqb_refl (a : jsstring) : jsstring_eqb a a = true.
Proof. now apply jsstring_eqb_eq. Qed.

Lemma jsstring_eqb_neq (a b : jsstring) : jsstring_eqb a b = false <-> a <> b.
Proof.
  split; intros H.
  - intros E. apply jsstring_eqb_eq in E. congruence.
  - destruct (jsstring_eqb a b) eqn:E; [|reflexivity].
    apply jsstring_eqb_eq in E. contradiction.
Qed.

Lemma split_on_not_nil sep s : split_on sep s <> [].
Proof.
  destruct s as [|c r]; simpl; [discriminate|].
  destruct (sep c); [discriminate|].
  destruct (split_on sep r); discriminate.
Qed.

(** A text without separator is a single token. *)
Lemma split_on_no_sep sep s :
  forallb (fun c => negb (sep c)) s = true -> split_on sep s = [s].
Proof.
  induction s as [|c r IH]; simpl; intros H; [reflexivity|].
  apply andb_true_iff in H as [Hc Hr].
  apply negb_true_iff in Hc. rewrite Hc, (IH Hr). reflexivity.
Qed.

(** The first separator ends the first token. *)
Lemma split_on_app_sep sep a c s :
  forallb (fun c => negb (sep c)) a = true -> sep c = true ->
  split_on sep (a ++ c :: s) = a :: split_on sep s.
Proof.
  intros Ha Hc. induction a as [|x a IH]; simpl.
  - now rewrite Hc.
  - simpl in Ha. apply andb_true_iff in Ha as [Hx Ha].
    apply negb_true_iff in Hx. rewrite Hx, (IH Ha). reflexivity.
Qed.

(** ** Expansion parsing *)

Lemma kept_tokens_cons x l :
  kept_tokens (x :: l)
  = (if negb (jsstring_eqb (trim x) []) then [trim x] else []) ++ kept_tokens l.
Proof.
  unfold kept_tokens; simpl. now destruct (negb (jsstring_eqb (trim x) [])).
Qed.

Lemma kept_tokens_empty_head l : kept_tokens ([] :: l) = kept_tokens l.
Proof. reflexivity. Qed.

(** Splitting on runs and splitting on single separators agree on the
    first token and, up to empty tokens, on the others. *)
Lemma split_runs_from_split_on sep s :
  (exists tok toks toks',
      split_runs_from sep false s = tok :: toks
      /\ split_on sep s = tok :: toks'
      /\ kept_tokens toks = kept_tokens toks')
  /\ kept_tokens (split_runs_from sep true s) = kept_tokens (split_on sep s).
Proof.
  induction s as [|c r [(tok & toks & toks' & Hr & Hs & Hk) Ht]]; simpl.
  - split; [exists [], [], []; repeat split|reflexivity].
  - destruct (sep c).
    + split.
      * exists [], (split_runs_from sep true r), (split_on sep r).
        repeat split. exact Ht.
      * rewrite kept_tokens_empty_head. exact Ht.
    + rewrite Hr, Hs. split.
      * exists (c :: tok), toks, toks'. repeat split. exact Hk.
      * rewrite !kept_tokens_cons, Hk. reflexivity.
Qed.

Lemma parse_keywords_spec_keywords content :
  parse_keywords content = spec_keywords content.
Proof.
  unfold parse_keywords, spec_keywords, split_runs.
  destruct (split_runs_from_split_on is_newline_or_comma content)
    as [(tok & toks & toks' & Hr & Hs & Hk) _].
  fold (kept_tokens (split_runs_from is_newline_or_comma false content)).
  change (filter (fun k => negb (jsstring_eqb k []))
            (map trim (split_on is_newline_or_comma content)))
    with (kept_tokens (split_on is_newline_or_comma content)).
  rewrite Hr, Hs, !kept_tokens_cons, Hk. reflexivity.
Qed.

Lemma split_on_join_clean toks :
  toks <> [] ->
  forallb clean_token toks = true ->
  split_on is_newline_or_comma (join (js ",") toks) = toks.
Proof.
  induction toks as [|x [|y r] IH]; intros Hne Hall; [congruence| |].
  - simpl in *. rewrite andb_true_r in Hall.
    unfold clean_token in Hall.
    apply andb_true_iff in Hall as [Hall _]. apply andb_true_iff in Hall as [Hsep _].
    now rewrite split_on_no_sep.
  - change (join (js ",") (x :: y :: r)) with (x ++ 0x2C :: join (js ",") (y :: r)).
    simpl in Hall. apply andb_true_iff in Hall as [Hx Hr].
    unfold clean_token in Hx.
    apply andb_true_iff in Hx as [Hx _]. apply andb_true_iff in Hx as [Hsep _].
    rewrite split_on_app_sep; [|exact Hsep|reflexivity].
    f_equal. apply IH; [discriminate|exact Hr].
Qed.

Lemma kept_tokens_clean toks :
  forallb clean_token toks = true -> kept_tokens toks = toks.
Proof.
  induction toks as [|x r IH]; intros Hall; [reflexivity|].
  simpl in Hall. apply andb_true_iff in Hall as [Hx Hr].
  rewrite kept_tokens_cons, (IH Hr).
  unfold clean_token in Hx.
  apply andb_true_iff in Hx as [Hx Htrim]. apply andb_true_iff in Hx as [_ Hne].
  apply jsstring_eqb_eq in Htrim. rewrite Htrim, Hne. reflexivity.
Qed.

Lemma parse_keywords_join_clean toks :
  forallb clean_token toks = true ->
  parse_keywords (join (js ",") toks) = toks.
Proof.
  intros Hall. rewrite parse_keywords_spec_keywords.
  destruct toks as [|x r]; [reflexivity|].
  unfold spec_keywords.
  rewrite split_on_join_clean; [|discriminate|exact Hall].
  now apply kept_tokens_clean.
Qed.

Example parse_keywords_ex :
  parse_keywords (js "
 progress report OR status update ,, 進捗報告
,")
  = [js "progress report OR status update"; js "進捗報告"].
Proof. reflexivity. Qed.

(** C7 (as amended): the expanded queries are the tokens obtained by
    splitting the response at newlines and commas, trimmed, the empty ones
    discarded, in the order of the response; and no bound is put on their
    number: any list of clean tokens sent comma-separated comes back whole. *)
Theorem parse_keywords_tokens_unbounded :
  (forall content, parse_keywords content = spec_keywords content)
  /\ (forall toks, forallb clean_token toks = true ->
                   parse_keywords (join (js ",") toks) = toks).
Proof.
  split.
  - exact parse_keywords_spec_keywords.
  - exact parse_keywords_join_clean.
Qed.

Lemma parse_keywords_tokens_unbounded_witness :
  parse_keywords (join (js ",") (map js ["a"; "b"; "c"; "d"; "e"; "f"; "g"; "h"; "i"; "j"; "k"; "l"]%string))
  = map js ["a"; "b"; "c"; "d"; "e"; "f"; "g"; "h"; "i"; "j"; "k"; "l"]%string.
Proof.
  apply (proj2 parse_keywords_tokens_unbounded).
  vm_compute. reflexivity.
Defined.

(** C7, the claim as stated fails: eleven comma-separated tokens give
    eleven queries, more than the ten the claim allows. *)
Lemma parse_keywords_more_than_ten :
  ~ (length (parse_keywords (js "a,b,c,d,e,f,g,h,i,j,k")) <= 10)%nat.
Proof. vm_compute. lia. Qed.

(** ** Index parsing *)

Example parseInt_ex :
  map parseInt (map js ["12"; " 7"; "3abc"; "1.5"; "+4"; "-2"; "0x1f"; "abc"; ""; "-"; "１"]%string)
  = [Num 12; Num 7; Num 3; Num 1; Num 4; Num (-2); Num 31; NaN; NaN; NaN; NaN].
Proof. reflexivity. Qed.

Example evaluatedIndexes_ex :
  evaluatedIndexes (js "2, 1, 1, x, 9, 0, , 3rd") 3 = [Num 1; Num 0; Num 0; Num 2].
Proof. reflexivity. Qed.

Lemma digit_value_not_digit c :
  is_digit c = false -> digit_value 10 c = None.
Proof.
  intros H. unfold digit_value. rewrite H.
  destruct ((0x61 <=? c) && (c <=? 0x7A)).
  - destruct (Z.ltb_spec (Z.of_N (c - 0x61) + 10) 10); [lia|reflexivity].
  - destruct ((0x41 <=? c) && (c <=? 0x5A)); [|reflexivity].
    destruct (Z.ltb_spec (Z.of_N (c - 0x41) + 10) 10); [lia|reflexivity].
Qed.

(** A text that, blanks skipped, starts with neither a digit nor a sign
    is not a number. *)
Lemma parseInt_not_numeric s c r :
  trimStart s = c :: r ->
  is_digit c = false -> c <> 0x2D -> c <> 0x2B ->
  parseInt s = NaN.
Proof.
  intros Hs Hd Hminus Hplus. unfold parseInt. rewrite Hs.
  apply N.eqb_neq in Hminus, Hplus. rewrite Hminus, Hplus.
  assert (H0 : (c =? 0x30) = false).
  { destruct (N.eqb_spec c 0x30) as [->|]; [discriminate Hd|reflexivity]. }
  destruct r as [|c1 r']; [|rewrite H0]; cbn [andb]; cbv beta iota;
    now rewrite (digit_value_not_digit c Hd).
Qed.

Lemma parseInt_blank s : trimStart s = [] -> parseInt s = NaN.
Proof. intros Hs. unfold parseInt. now rewrite Hs. Qed.

Lemma valid_index_minus_one len v :
  valid_index len (minus_one (Num v)) = ((1 <=? v) && (v <=? Z.of_nat len))%Z.
Proof.
  simpl.
  destruct (Z.leb_spec 0 (v - 1)), (Z.leb_spec 1 v); try lia; simpl;
    destruct (Z.ltb_spec (v - 1) (Z.of_nat len)), (Z.leb_spec v (Z.of_nat len));
    try lia; reflexivity.
Qed.

Lemma valid_index_range len index :
  valid_index len index = true ->
  exists z, index = Num z /\ (0 <= z < Z.of_nat len)%Z.
Proof.
  destruct index as [|z]; simpl; [discriminate|].
  intros H. apply andb_true_iff in H as [H0 H1].
  apply Z.leb_le in H0. apply Z.ltb_lt in H1. now exists z.
Qed.

Lemma filter_map_tokens len toks :
  filter (valid_index len)
    (map (fun index => minus_one (parseInt (trim index))) toks)
  = flat_map
      (fun tok =>
         match token_index len tok with
         | Some i => [Num i]
         | None => []
         end) toks.
Proof.
  induction toks as [|tok r IH]; [reflexivity|].
  simpl. rewrite IH. unfold token_index.
  destruct (parseInt (trim tok)) as [|v]; [reflexivity|].
  rewrite valid_index_minus_one.
  destruct ((1 <=? v) && (v <=? Z.of_nat len))%Z; reflexivity.
Qed.

(** *** The reading by leading integers *)

Lemma isWhiteSpace_spec_blank c : isWhiteSpace c = spec_blank c.
Proof.
  unfold isWhiteSpace, spec_blank. cbn [existsb].
  repeat match goal with
  | |- context [c =? ?k] => destruct (N.eqb_spec c k) as [->|?]; [reflexivity|]
  end.
  cbn [orb].
  destruct (N.leb_spec 0x2000 c), (N.leb_spec c 0x200A); cbn [andb];
    try reflexivity; lia.
Qed.

Lemma trimStart_drop_blanks s : trimStart s = drop_blanks s.
Proof.
  induction s as [|c r IH]; [reflexivity|].
  cbn [trimStart drop_blanks]. now rewrite isWhiteSpace_spec_blank, IH.
Qed.

Lemma trim_strip_blanks s : trim s = strip_blanks s.
Proof.
  unfold trim, trimEnd, strip_blanks. now rewrite !trimStart_drop_blanks.
Qed.

Lemma split_on_tokens_from s : forall cur,
  tokens_from cur s
  = match split_on is_comma s with
    | tok :: toks => (rev cur ++ tok) :: toks
    | [] => [rev cur]
    end.
Proof.
  induction s as [|c r IH]; intros cur.
  - cbn [tokens_from split_on]. now rewrite app_nil_r.
  - cbn [tokens_from split_on]. unfold is_comma at 1.
    destruct (c =? 0x2C).
    + rewrite app_nil_r, (IH []). cbn [rev app].
      destruct (split_on is_comma r) as [|tok toks] eqn:Hr; [|reflexivity].
      now destruct (split_on_not_nil is_comma r).
    + rewrite (IH (c :: cur)). cbn [rev].
      destruct (split_on is_comma r) as [|tok toks] eqn:Hr.
      * now destruct (split_on_not_nil is_comma r).
      * now rewrite <- app_assoc.
Qed.

Lemma comma_tokens_split_on s : comma_tokens s = split_on is_comma s.
Proof.
  unfold comma_tokens. rewrite split_on_tokens_from. cbn [rev app].
  destruct (split_on is_comma s) eqn:Hs; [|reflexivity].
  now destruct (split_on_not_nil is_comma s).
Qed.

Ltac by_ranges :=
  repeat match goal with
         | |- context [N.leb ?a ?b] => destruct (N.leb_spec a b)
         end;
  cbn [andb]; cbv beta iota zeta;
  repeat match goal with
         | |- context [Z.ltb ?a ?b] => destruct (Z.ltb_spec a b)
         end;
  first [reflexivity | f_equal; lia | exfalso; lia].

Lemma digit_value_decimal c : digit_value 10 c = decimal_digit c.
Proof. unfold digit_value, is_digit, decimal_digit. by_ranges. Qed.

Lemma digit_value_hex c : digit_value 16 c = hex_digit c.
Proof. unfold digit_value, is_digit, hex_digit. by_ranges. Qed.

Lemma parse_digits_run radix digit :
  (forall c, digit_value radix c = digit c) ->
  forall s acc,
    parse_digits radix acc s
    = fold_left (fun acc d => acc * radix + d)%Z (digit_run digit s) acc.
Proof.
  intros Hdigit. induction s as [|c r IH]; intros acc; [reflexivity|].
  cbn [parse_digits digit_run]. rewrite Hdigit.
  destruct (digit c) as [d|]; [|reflexivity].
  cbn [fold_left]. apply IH.
Qed.

Lemma digits_run_value sign radix digit s :
  (forall c, digit_value radix c = digit c) ->
  match s with
  | c :: _ =>
      match digit_value radix c with
      | Some _ => Num (sign * parse_digits radix 0 s)
      | None => NaN
      end
  | [] => NaN
  end
  = match run_value digit radix s with
    | Some v => Num (sign * v)
    | None => NaN
    end.
Proof.
  intros Hdigit. destruct s as [|c r]; [reflexivity|].
  rewrite (parse_digits_run radix digit Hdigit).
  unfold run_value, positional. cbn [digit_run]. rewrite Hdigit.
  now destruct (digit c).
Qed.

(** What [parseInt] does after the blanks and the sign. *)
Lemma parseInt_unsigned sign s1 :
  (let '(radix, s2) :=
     match s1 with
     | c0 :: c1 :: r =>
         if (c0 =? 0x30) && ((c1 =? 0x78) || (c1 =? 0x58)) then (16%Z, r)
         else (10%Z, s1)
     | _ => (10%Z, s1)
     end in
   match s2 with
   | c :: _ =>
       match digit_value radix c with
       | Some _ => Num (sign * parse_digits radix 0 s2)
       | None => NaN
       end
   | [] => NaN
   end)
  = match unsigned_integer s1 with
    | Some v => Num (sign * v)
    | None => NaN
    end.
Proof.
  unfold unsigned_integer.
  destruct s1 as [|c0 [|c1 r]].
  - exact (digits_run_value sign 10 decimal_digit [] digit_value_decimal).
  - exact (digits_run_value sign 10 decimal_digit [c0] digit_value_decimal).
  - destruct ((c0 =? 0x30) && ((c1 =? 0x78) || (c1 =? 0x58))).
    + exact (digits_run_value sign 16 hex_digit r digit_value_hex).
    + exact (digits_run_value sign 10 decimal_digit (c0 :: c1 :: r)
               digit_value_decimal).
Qed.

(** [parseInt] gives the integer that the text starts with, and [NaN] when
    there is none. *)
Lemma parseInt_leading_integer s :
  parseInt s
  = match leading_integer s with
    | Some v => Num v
    | None => NaN
    end.
Proof.
  unfold parseInt, leading_integer. cbv zeta. rewrite trimStart_drop_blanks.
  destruct (drop_blanks s) as [|c r]; [reflexivity|].
  destruct (c =? 0x2D); [|destruct (c =? 0x2B)].
  - etransitivity; [exact (parseInt_unsigned (-1) r)|].
    destruct (unsigned_integer r) as [v|]; [|reflexivity].
    cbn [option_map]. f_equal; lia.
  - etransitivity; [exact (parseInt_unsigned 1 r)|].
    destruct (unsigned_integer r) as [v|]; [|reflexivity]. f_equal; lia.
  - etransitivity; [exact (parseInt_unsigned 1 (c :: r))|].
    destruct (unsigned_integer (c :: r)) as [v|]; [|reflexivity]. f_equal; lia.
Qed.

Lemma filter_map_spec_index len toks :
  filter (valid_index len)
    (map (fun index => minus_one (parseInt (trim index))) toks)
  = flat_map (spec_index len) toks.
Proof.
  induction toks as [|tok r IH]; [reflexivity|].
  cbn [map filter flat_map]. rewrite IH. unfold spec_index, index_of_value.
  rewrite <- trim_strip_blanks, parseInt_leading_integer.
  destruct (leading_integer (trim tok)) as [v|]; [|reflexivity].
  rewrite valid_index_minus_one.
  destruct ((1 <=? v) && (v <=? Z.of_nat len))%Z; reflexivity.
Qed.

(** C2 (as amended): the index parsing is total (it is a function into
    lists, nothing is raised).  It cuts the response at its commas and
    trims each token; of a trimmed token it reads the integer that the
    token starts with: one optional sign, then the longest run of decimal
    digits, or of hexadecimal digits after [0x] or [0X]; whatever follows
    the digits is not looked at.  A token that starts with no such integer
    is dropped, and so is a token whose value lies outside [[1, len]];
    every other token gives its value less one.  The indices come in the
    order of the tokens, and each lies in [[0, len)]. *)
Theorem evaluatedIndexes_leading_integers content len :
  evaluatedIndexes content len = spec_indices content len
  /\ Forall (fun index => exists z, index = Num z /\ (0 <= z < Z.of_nat len)%Z)
       (evaluatedIndexes content len).
Proof.
  split.
  - unfold evaluatedIndexes, spec_indices.
    rewrite comma_tokens_split_on. apply filter_map_spec_index.
  - apply Forall_forall. intros index Hin.
    apply filter_In in Hin as [_ Hv]. now apply valid_index_range.
Qed.

(** C2, the claim as stated fails: none of the tokens ["3rd"], ["1.9"]
    and ["0x2"] is numeric, and the three are kept, as the indices of the
    values 3, 1 and 2. *)
Lemma evaluatedIndexes_keeps_non_numeric :
  evaluatedIndexes (js "3rd, 1.9, 0x2") 3 = [Num 2; Num 0; Num 1]
  /\ spec_numeric_indices (js "3rd, 1.9, 0x2") 3 = [].
Proof. vm_compute. split; reflexivity. Qed.

Example spec_indices_ex :
  spec_indices (js "2, 1, 1, x, 9, 0, , 3rd, -1, +2 , 0x, 0X3") 3
  = [Num 1; Num 0; Num 0; Num 2; Num 1; Num 2]
  /\ spec_numeric_indices (js "2, 1, 1, x, 9, 0, , 3rd, -1, +2 , 0x, 0X3") 3
     = [Num 1; Num 0; Num 0; Num 1].
Proof. vm_compute. split; reflexivity. Qed.

(** On a numeral the two readings agree: a token that is numeric is read
    as the claim says. *)
Lemma digits_only_unsigned r v :
  (if (length (digit_run decimal_digit r) =? length r)%nat
   then run_value decimal_digit 10 r else None) = Some v ->
  unsigned_integer r = Some v.
Proof.
  unfold unsigned_integer.
  destruct r as [|c0 [|c1 r']];
    try (destruct (Nat.eqb _ _); [tauto|discriminate]).
  destruct ((c0 =? 0x30) && ((c1 =? 0x78) || (c1 =? 0x58))) eqn:Hx.
  - apply andb_true_iff in Hx as [H0 Hx]. apply N.eqb_eq in H0. subst c0.
    assert (Hc1 : decimal_digit c1 = None).
    { apply orb_true_iff in Hx as [Hx|Hx]; apply N.eqb_eq in Hx; now subst c1. }
    cbn [digit_run]. change (decimal_digit 0x30) with (Some 0%Z).
    cbv beta iota. rewrite Hc1. discriminate.
  - destruct (Nat.eqb _ _); [tauto|discriminate].
Qed.

Lemma digits_only_head c r v :
  (if (length (digit_run decimal_digit (c :: r)) =? length (c :: r))%nat
   then run_value decimal_digit 10 (c :: r) else None) = Some v ->
  spec_blank c = false.
Proof.
  cbn [digit_run]. unfold decimal_digit at 1.
  destruct (N.leb_spec 0x30 c), (N.leb_spec c 0x39); cbn [andb]; cbv beta iota;
    try discriminate.
  intros _. unfold spec_blank. cbn [existsb].
  repeat match goal with
         | |- context [c =? ?k] => destruct (N.eqb_spec c k); [lia|]
         end.
  reflexivity.
Qed.

Lemma integer_numeral_leading s v :
  integer_numeral s = Some v -> leading_integer s = Some v.
Proof.
  unfold integer_numeral, leading_integer. destruct s as [|c r]; [discriminate|].
  intros Hv.
  assert (Hc : spec_blank c = false).
  { revert Hv.
    destruct (N.eqb_spec c 0x2D) as [->|_]; [reflexivity|].
    destruct (N.eqb_spec c 0x2B) as [->|_]; [reflexivity|].
    apply digits_only_head. }
  cbn [drop_blanks]. rewrite Hc. revert Hv.
  destruct (c =? 0x2D); [|destruct (c =? 0x2B)].
  - destruct (if (length (digit_run decimal_digit r) =? length r)%nat
              then run_value decimal_digit 10 r else None) as [w|] eqn:Hw;
      [|discriminate].
    intros Hv. now rewrite (digits_only_unsigned r w Hw).
  - apply digits_only_unsigned.
  - apply digits_only_unsigned.
Qed.

Lemma numeric_index_spec_index len tok v :
  integer_numeral (strip_blanks tok) = Some v ->
  spec_index len tok = numeric_index len tok.
Proof.
  intros Hv. unfold spec_index, numeric_index.
  now rewrite Hv, (integer_numeral_leading _ _ Hv).
Qed.

(** ** The object used as a map *)

Lemma has_own_In o k : has_own o k = true <-> In k (map fst o).
Proof.
  unfold has_own. rewrite existsb_exists, in_map_iff. split.
  - intros (p & Hin & He). apply jsstring_eqb_eq in He. now exists p.
  - intros (p & He & Hin). exists p. split; [exact Hin|]. now apply jsstring_eqb_eq.
Qed.

Lemma has_own_false o k : has_own o k = false <-> ~ In k (map fst o).
Proof.
  rewrite <- has_own_In. destruct (has_own o k); split; congruence.
Qed.

Lemma insert_by_index_perm p l : Permutation (insert_by_index p l) (p :: l).
Proof.
  induction l as [|q r IH]; simpl; [reflexivity|].
  destruct (fst p <=? fst q); [reflexivity|].
  rewrite IH. apply perm_swap.
Qed.

Lemma sort_by_index_perm l : Permutation (sort_by_index l) l.
Proof.
  induction l as [|p r IH]; simpl; [reflexivity|].
  rewrite insert_by_index_perm. now constructor.
Qed.

Lemma index_string_props_perm o :
  Permutation (map snd (index_props o) ++ string_props o) (map snd o).
Proof.
  induction o as [|[k v] r IH]; simpl; [reflexivity|].
  destruct (array_index k); simpl.
  - now constructor.
  - rewrite <- IH. symmetry. apply Permutation_middle.
Qed.

(** [Object.values] lists every own property once, possibly reordered. *)
Lemma Object_values_perm o : Permutation (Object_values o) (map snd o).
Proof.
  unfold Object_values.
  rewrite (Permutation_map snd (sort_by_index_perm (index_props o))).
  apply index_string_props_perm.
Qed.

Lemma plain_props_split o :
  forallb (fun p => plain_key (fst p)) o = true ->
  index_props o = [] /\ string_props o = map snd o.
Proof.
  induction o as [|[k v] r IH]; simpl; [now split|].
  intros H. apply andb_true_iff in H as [Hk Hr].
  unfold plain_key in Hk. destruct (array_index k); [discriminate|].
  destruct (IH Hr) as [Hi Hs]. split; [exact Hi|]. now rewrite Hs.
Qed.

(** Without array-index keys the creation order is the order of the values. *)
Lemma Object_values_plain o :
  forallb (fun p => plain_key (fst p)) o = true -> Object_values o = map snd o.
Proof.
  intros H. destruct (plain_props_split o H) as [Hi Hs].
  unfold Object_values. now rewrite Hi, Hs.
Qed.

(** ** Deduplication *)


Lemma array_get_In {A : Type} (arr : list A) index x :
  array_get arr index = Some x -> In x arr.
Proof.
  destruct index as [|z]; simpl; [discriminate|].
  destruct (z <? 0)%Z; [discriminate|]. apply nth_error_In.
Qed.

Lemma unique_inv_add allResults hits o msg :
  unique_inv allResults hits o ->
  In msg allResults -> In msg hits ->
  has_own o (permalink msg) = false ->
  unique_inv allResults hits (o ++ [(permalink msg, msg)]).
Proof.
  intros [Hall Hnd] Hpool Hhit Hnew. split.
  - apply Forall_app. split; [exact Hall|]. constructor; [|constructor].
    simpl. repeat split; assumption.
  - rewrite map_app. simpl.
    apply (Permutation_NoDup (Permutation_cons_append (map fst o) (permalink msg))).
    constructor; [|exact Hnd]. now apply has_own_false.
Qed.

Lemma set_property_new o k v :
  has_own o k = false ->
  set_property o k v = if jsstring_eqb k (js "__proto__") then o else o ++ [(k, v)].
Proof. intros H. unfold set_property. now rewrite H. Qed.

Lemma fill_unique_inv allResults hits indexes :
  forall o o',
    incl (referenced allResults indexes) hits ->
    unique_inv allResults hits o ->
    fill_unique allResults indexes o = Normal o' ->
    unique_inv allResults hits o'.
Proof.
  induction indexes as [|index rest IH]; intros o o' Hincl Hinv Hrun; simpl in Hrun.
  - now injection Hrun as <-.
  - unfold referenced in Hincl. simpl in Hincl. fold (referenced allResults rest) in Hincl.
    destruct (array_get allResults index) as [msg|] eqn:Hget.
    + apply incl_app_inv in Hincl as [Hmsg Hrest].
      unfold call_hasOwnProperty in Hrun.
      destruct (has_own o (js "hasOwnProperty")); [discriminate|].
      destruct (has_own o (permalink msg)) eqn:Hown.
      * apply (IH o o' Hrest Hinv Hrun).
      * rewrite (set_property_new _ _ _ Hown) in Hrun.
        destruct (jsstring_eqb (permalink msg) (js "__proto__")).
        -- apply (IH o o' Hrest Hinv Hrun).
        -- apply (IH _ o' Hrest) in Hrun; [exact Hrun|].
           apply unique_inv_add; try assumption.
           ++ now apply (array_get_In allResults index).
           ++ apply Hmsg. now left.
    + apply (IH o o' Hincl Hinv Hrun).
Qed.

Lemma firstn_incl {A : Type} n (l : list A) : incl (firstn n l) l.
Proof.
  intros x Hin. rewrite <- (firstn_skipn n l). apply in_or_app. now left.
Qed.

Lemma firstn_NoDup {A : Type} n (l : list A) : NoDup l -> NoDup (firstn n l).
Proof.
  intros H. rewrite <- (firstn_skipn n l) in H. now apply NoDup_app_remove_r in H.
Qed.

(** Whatever the permalinks, a result that is produced lies within the
    pool and within the referenced hits, and holds no permalink twice. *)
Lemma results_of_sound allResults indexes res :
  results_of allResults indexes = Normal res ->
  incl res allResults
  /\ incl res (referenced allResults indexes)
  /\ NoDup (map permalink res).
Proof.
  unfold results_of. generalize 15%nat. intros n Hrun.
  destruct (fill_unique allResults indexes []) as [o|e] eqn:Hfill; [|discriminate].
  injection Hrun as <-.
  assert (Hinv : unique_inv allResults (referenced allResults indexes) o).
  { apply (fill_unique_inv allResults _ indexes [] o); [apply incl_refl| |exact Hfill].
    split; constructor. }
  destruct Hinv as [Hall Hnd].
  assert (Hvals : forall x, In x (Object_values o) -> In x (map snd o)).
  { intros x. apply Permutation_in, Object_values_perm. }
  assert (Hprop : forall x, In x (map snd o) ->
                            In x allResults /\ In x (referenced allResults indexes)).
  { intros x Hx. apply in_map_iff in Hx as (p & <- & Hp).
    rewrite Forall_forall in Hall. destruct (Hall p Hp) as (_ & H1 & H2). now split. }
  repeat split.
  - intros x Hx. apply firstn_incl, Hvals, Hprop in Hx. tauto.
  - intros x Hx. apply firstn_incl, Hvals, Hprop in Hx. tauto.
  - rewrite <- firstn_map. apply firstn_NoDup.
    apply (Permutation_NoDup
             (Permutation_sym (Permutation_map permalink (Object_values_perm o)))).
    rewrite map_map.
    replace (map (fun p => permalink (snd p)) o) with (map fst o); [exact Hnd|].
    apply map_ext_in. intros p Hp. rewrite Forall_forall in Hall.
    now destruct (Hall p Hp) as (-> & _).
Qed.

Lemma existsb_eqb_In k kept : existsb (jsstring_eqb k) kept = true <-> In k kept.
Proof.
  rewrite existsb_exists. split.
  - intros (x & Hin & He). apply jsstring_eqb_eq in He. now subst.
  - intros Hin. exists k. split; [exact Hin|apply jsstring_eqb_refl].
Qed.

Lemma plain_key_facts k :
  plain_key k = true ->
  jsstring_eqb k (js "__proto__") = false /\ k <> js "hasOwnProperty".
Proof.
  unfold plain_key. destruct (array_index k); [discriminate|].
  intros H. apply andb_true_iff in H as [H1 H2].
  apply negb_true_iff in H1, H2. split; [exact H1|]. now apply jsstring_eqb_neq.
Qed.

(** With plain permalinks the loop never raises and adds, in order, the
    hits that [keep_first] keeps. *)
Lemma fill_unique_plain allResults indexes :
  forall o kept,
    (forall k, In k (map fst o) <-> In k kept) ->
    has_own o (js "hasOwnProperty") = false ->
    forallb (fun h => plain_key (permalink h)) (referenced allResults indexes) = true ->
    fill_unique allResults indexes o
    = Normal (o ++ as_props (keep_first kept (referenced allResults indexes))).
Proof.
  induction indexes as [|index rest IH]; intros o kept Hkeys Hmethod Hplain; simpl.
  - unfold referenced, as_props. simpl. now rewrite app_nil_r.
  - unfold referenced in Hplain |- *. simpl in Hplain |- *.
    fold (referenced allResults rest) in Hplain |- *.
    destruct (array_get allResults index) as [msg|] eqn:Hget; simpl in Hplain |- *.
    + apply andb_true_iff in Hplain as [Hmsg Hrest].
      destruct (plain_key_facts _ Hmsg) as [Hproto Hname].
      unfold call_hasOwnProperty. rewrite Hmethod.
      destruct (has_own o (permalink msg)) eqn:Hown.
      * assert (Hk : existsb (jsstring_eqb (permalink msg)) kept = true).
        { apply existsb_eqb_In, Hkeys, has_own_In, Hown. }
        rewrite Hk. now apply IH.
      * assert (Hk : existsb (jsstring_eqb (permalink msg)) kept = false).
        { destruct (existsb (jsstring_eqb (permalink msg)) kept) eqn:E; [|reflexivity].
          apply existsb_eqb_In, Hkeys, has_own_In in E. congruence. }
        rewrite Hk, (set_property_new _ _ _ Hown), Hproto.
        rewrite (IH (o ++ [(permalink msg, msg)]) (permalink msg :: kept)); try assumption.
        -- unfold as_props. simpl. now rewrite <- app_assoc.
        -- intros k. rewrite map_app, in_app_iff. simpl. rewrite Hkeys. tauto.
        -- apply has_own_false. rewrite map_app, in_app_iff. simpl.
           apply has_own_false in Hmethod. intros [H|[H|[]]]; [tauto|]. congruence.
    + now apply IH.
Qed.

Lemma keep_first_incl kept hits : incl (keep_first kept hits) hits.
Proof.
  revert kept. induction hits as [|h r IH]; intros kept; simpl; [apply incl_refl|].
  destruct (existsb (jsstring_eqb (permalink h)) kept).
  - apply incl_tl, IH.
  - apply incl_cons; [now left|]. apply incl_tl, IH.
Qed.

Lemma results_of_plain allResults indexes :
  forallb (fun h => plain_key (permalink h)) (referenced allResults indexes) = true ->
  results_of allResults indexes
  = Normal (firstn 15 (keep_first [] (referenced allResults indexes))).
Proof.
  intros Hplain. unfold results_of.
  rewrite (fill_unique_plain allResults indexes [] []); [|tauto|reflexivity|exact Hplain].
  rewrite app_nil_l, Object_values_plain.
  - unfold as_props. rewrite map_map. simpl. now rewrite map_id.
  - unfold as_props. rewrite forallb_forall in Hplain |- *.
    intros p Hp. apply in_map_iff in Hp as (h & <- & Hh). simpl.
    apply Hplain. now apply (keep_first_incl [] _ h).
Qed.

Example results_of_scenario :
  let A := {| text := js "status update"; permalink := js "https://x.slack.com/p1" |} in
  let B := {| text := js "進捗報告です"; permalink := js "https://x.slack.com/p2" |} in
  results_of [A; B] (evaluatedIndexes (js "2, 1, 1") 2) = Normal [B; A].
Proof. reflexivity. Qed.

(** The deduplication on the permalinks that Slack returns.  Whenever a
    result is produced, it is made of hits of the pool that the index
    sequence refers to, with no permalink twice; and when no referenced
    permalink is an array-index string, [__proto__] or [hasOwnProperty]
    (a URL is none of these), the result is the first 15 of the hits kept
    by walking the index sequence in order and keeping a hit only if its
    permalink has not been kept already, so that its order is that of the
    first references. *)
Theorem results_of_keep_first allResults indexes :
  (forall res, results_of allResults indexes = Normal res ->
               incl res allResults
               /\ incl res (referenced allResults indexes)
               /\ NoDup (map permalink res))
  /\ (forallb (fun h => plain_key (permalink h)) (referenced allResults indexes) = true ->
      results_of allResults indexes
      = Normal (firstn 15 (keep_first [] (referenced allResults indexes)))).
Proof.
  split.
  - apply results_of_sound.
  - apply results_of_plain.
Qed.

Lemma results_of_keep_first_witness :
  let A := {| text := js "status update"; permalink := js "https://x.slack.com/p1" |} in
  let B := {| text := js "進捗報告です"; permalink := js "https://x.slack.com/p2" |} in
  results_of [A; B] [Num 1; Num 0; Num 0]
  = Normal (firstn 15 (keep_first [] (referenced [A; B] [Num 1; Num 0; Num 0])))
  /\ incl [B; A] [A; B].
Proof.
  intros A B. split.
  - apply (proj2 (results_of_keep_first [A; B] [Num 1; Num 0; Num 0])).
    vm_compute. reflexivity.
  - apply (proj1 (results_of_keep_first [A; B] [Num 1; Num 0; Num 0]) [B; A]).
    vm_compute. reflexivity.
Defined.


(** A permalink named [hasOwnProperty] shadows the method: the next test
    raises a [TypeError]. *)
Example results_of_shadowed_method :
  let A := {| text := js "a"; permalink := js "hasOwnProperty" |} in
  let B := {| text := js "b"; permalink := js "https://x.slack.com/p2" |} in
  results_of [A; B] [Num 0; Num 1] = Thrown TypeError.
Proof. reflexivity. Qed.

(** C8: a result that is produced has at most 15 entries. *)
Theorem results_of_length allResults indexes res :
  results_of allResults indexes = Normal res -> (length res <= 15)%nat.
Proof.
  unfold results_of.
  destruct (fill_unique allResults indexes []) as [o|e]; [|discriminate].
  generalize 15%nat. intros n H. injection H as <-. apply firstn_le_length.
Qed.

Lemma results_of_length_witness :
  exists res,
    results_of sixteen_hits
      (evaluatedIndexes (js "1,2,3,4,5,6,7,8,9,10,11,12,13,14,15,16") 16) = Normal res
    /\ (length res <= 15)%nat.
Proof.
  eexists. split.
  - vm_compute. reflexivity.
  - eapply (results_of_length sixteen_hits
              (evaluatedIndexes (js "1,2,3,4,5,6,7,8,9,10,11,12,13,14,15,16") 16)).
    vm_compute. reflexivity.
Defined.

(** With plain permalinks a result is produced, and it is cut only when
    more than 15 hits were kept. *)
Lemma results_of_length_plain allResults indexes :
  forallb (fun h => plain_key (permalink h)) (referenced allResults indexes) = true ->
  exists res,
    results_of allResults indexes = Normal res
    /\ length res = Nat.min 15 (length (keep_first [] (referenced allResults indexes))).
Proof.
  intros Hplain. rewrite (results_of_plain allResults indexes Hplain).
  eexists. split; [reflexivity|]. apply length_firstn.
Qed.

(** ** Presentation *)

Example responseText_ex :
  responseText
    [ {| text := js "進捗報告です"; permalink := js "https://x.slack.com/p2" |};
      {| text := js "0123456789012345678901234567890123456789";
         permalink := js "https://x.slack.com/p1" |} ]
  = js "1. 進捗報告です… → <https://x.slack.com/p2|リンク>
2. 012345678901234567890123456789… → <https://x.slack.com/p1|リンク>".
Proof. reflexivity. Qed.

Lemma result_line_entry idx msg :
  result_line idx msg = entry_of (idx + 1) (firstn 30 (text msg)) (permalink msg).
Proof. reflexivity. Qed.

Lemma result_lines_from_length idx results :
  length (result_lines_from idx results) = length results.
Proof.
  revert idx. induction results as [|msg r IH]; intros idx; simpl; [reflexivity|].
  now rewrite IH.
Qed.

Lemma result_lines_from_nth idx results i msg :
  nth_error results i = Some msg ->
  nth_error (result_lines_from idx results) i = Some (result_line (idx + N.of_nat i) msg).
Proof.
  revert idx i. induction results as [|m r IH]; intros idx [|i] H; simpl in *;
    try discriminate.
  - injection H as ->. now rewrite N.add_0_r.
  - rewrite (IH (idx + 1) i H). do 2 f_equal. lia.
Qed.

(** The code's entry is the entry with a conditional ellipsis exactly when
    the text is longer than the snippet. *)
Lemma result_line_spec_iff idx msg :
  result_line idx msg = spec_result_line idx msg <-> (30 < length (text msg))%nat.
Proof.
  unfold result_line, spec_result_line.
  change (js "… → <") with ([0x2026] ++ js " → <").
  destruct (Nat.ltb_spec 30 (length (text msg))) as [Hlong|Hshort]; split; intros H;
    try reflexivity; try assumption; try lia.
  exfalso. do 3 apply app_inv_head in H. discriminate H.
Qed.

(** C9 (as amended): the answer is the entries of the results joined by
    newlines, one entry per result and in the same order; the entry of the
    result at 0-based position [i] is its 1-based position [i + 1], the
    first 30 code units of its text, an ellipsis in every case, and its
    permalink.  The ellipsis is thus conditional on the truncation only
    for texts longer than 30. *)
Theorem responseText_entries results :
  exists lines,
    responseText results = join (js "
") lines
    /\ length lines = length results
    /\ forall i msg,
        nth_error results i = Some msg ->
        nth_error lines i
        = Some (entry_of (N.of_nat i + 1) (firstn 30 (text msg)) (permalink msg))
        /\ (length (firstn 30 (text msg)) <= 30)%nat
        /\ (entry_of (N.of_nat i + 1) (firstn 30 (text msg)) (permalink msg)
            = spec_result_line (N.of_nat i) msg <-> (30 < length (text msg))%nat).
Proof.
  exists (result_lines_from 0 results). split; [reflexivity|].
  split; [apply result_lines_from_length|].
  intros i msg Hnth. split; [|split].
  - rewrite (result_lines_from_nth 0 results i msg Hnth). reflexivity.
  - apply firstn_le_length.
  - rewrite <- result_line_entry. apply result_line_spec_iff.
Qed.

Lemma responseText_entries_witness :
  let msg := {| text := js "0123456789012345678901234567890123456789";
                permalink := js "https://x.slack.com/p1" |} in
  exists lines,
    responseText [msg] = join (js "
") lines
    /\ nth_error lines 0
       = Some (js "1. 012345678901234567890123456789… → <https://x.slack.com/p1|リンク>").
Proof.
  intros msg.
  destruct (responseText_entries [msg]) as (lines & Hjoin & _ & Hnth).
  exists lines. split; [exact Hjoin|].
  destruct (Hnth 0%nat msg) as (Hline & _); [reflexivity|].
  rewrite Hline. vm_compute. reflexivity.
Defined.

(** C9, the claim as stated fails: a text of two code units is not
    truncated, and its entry carries the ellipsis all the same. *)
Lemma responseText_ellipsis_counterexample :
  let msg := {| text := js "hi"; permalink := js "https://x.slack.com/p1" |} in
  (length (text msg) <= 30)%nat
  /\ responseText [msg] = js "1. hi… → <https://x.slack.com/p1|リンク>"
  /\ responseText [msg] <> spec_responseText [msg].
Proof.
  intros msg. split; [vm_compute; lia|]. split; [reflexivity|].
  vm_compute. discriminate.
Qed.

(** ** Traces *)

Lemma requests_app h1 h2 : requests (h1 ++ h2) = requests h1 ++ requests h2.
Proof.
  induction h1 as [|[q r|l] h1 IH]; simpl; [reflexivity| |exact IH].
  now rewrite IH.
Qed.

Lemma searches_app h1 h2 : searches (h1 ++ h2) = searches h1 ++ searches h2.
Proof.
  induction h1 as [|[q r|l] h1 IH]; simpl; [reflexivity| |exact IH].
  destruct q; simpl; try exact IH. now rewrite IH.
Qed.

Lemma pool_of_app l1 l2 : pool_of (l1 ++ l2) = pool_of l1 ++ pool_of l2.
Proof. unfold pool_of. now rewrite map_app, concat_app. Qed.

(** ** The handler only appends to the trace *)

Section Extends.

Variable world : world_type.

Lemma extends_ret {A : Type} (a : A) : extends (ret a).
Proof. intros h. exists [], (Normal a). unfold ret. now rewrite app_nil_r. Qed.

Lemma extends_throw {A : Type} (e : js_error) : extends (@throw A e).
Proof. intros h. exists [], (Thrown e). unfold throw. now rewrite app_nil_r. Qed.

Lemma extends_lift {A : Type} (o : outcome A) : extends (lift o).
Proof. intros h. exists [], o. unfold lift. now rewrite app_nil_r. Qed.

Lemma extends_log (l : log_entry) : extends (log l).
Proof. intros h. now exists [Logged l], (Normal tt). Qed.

Lemma extends_call (q : request) : extends (call world q).
Proof. intros h. now exists [Called q (world h q)], (world h q). Qed.

Lemma extends_bind {A B : Type} (m : M A) (k : A -> M B) :
  extends m -> (forall a, extends (k a)) -> extends (bind m k).
Proof.
  intros Hm Hk h. unfold bind.
  destruct (Hm h) as (h1 & [a|e] & ->).
  - destruct (Hk a (h ++ h1)) as (h2 & out & ->).
    exists (h1 ++ h2), out. now rewrite app_assoc.
  - now exists h1, (Thrown e).
Qed.

Lemma extends_try_catch {A : Type} (m : M A) (handler : js_error -> M A) :
  extends m -> (forall e, extends (handler e)) -> extends (try_catch m handler).
Proof.
  intros Hm Hh h. unfold try_catch.
  destruct (Hm h) as (h1 & [a|e] & ->).
  - now exists h1, (Normal a).
  - destruct (Hh e (h ++ h1)) as (h2 & out & ->).
    exists (h1 ++ h2), out. now rewrite app_assoc.
Qed.

(** A computation that starts with a call records that call first. *)
Lemma bind_call_first {B : Type} (q : request) (k : reply_type q -> M B) h :
  (forall a, extends (k a)) ->
  exists h' out,
    bind (call world q) k h = (h ++ Called q (world h q) :: h', out).
Proof.
  intros Hk. unfold bind, call.
  destruct (world h q) as [a|e] eqn:Hr.
  - destruct (Hk a (h ++ [Called q (Normal a)])) as (h2 & out & ->).
    exists h2, out. now rewrite <- app_assoc.
  - now exists [], (Thrown e).
Qed.

End Extends.

Ltac extends_tac :=
  repeat
    match goal with
    | |- extends (ret _) => apply extends_ret
    | |- extends (throw _) => apply extends_throw
    | |- extends (lift _) => apply extends_lift
    | |- extends (log _) => apply extends_log
    | |- extends (call ?w ?q) => exact (extends_call w q)
    | |- extends (bind _ _) => apply extends_bind; [|intros ?]
    | |- extends (try_catch _ _) => apply extends_try_catch; [|intros ?]
    | |- extends (if ?b then _ else _) => destruct b
    | |- extends (match ?x with _ => _ end) => destruct x
    end.

(** ** The search loop *)

Section SearchLoop.

Variable world : world_type.
Variable token : jsstring.

(** One turn: one search with limit 20, then log lines only; a rejected
    search adds nothing to the pool and the turn ends normally. *)
Lemma search_one_run keyword allResults h :
  exists logs,
    requests logs = []
    /\ searches logs = []
    /\ search_one world token keyword allResults h
       = (h ++ Called (search_messages keyword 20 token true)
                 (world h (search_messages keyword 20 token true)) :: logs,
          Normal (allResults
                  ++ hits_of_reply (world h (search_messages keyword 20 token true)))).
Proof.
  unfold search_one, try_catch, bind, call, log, ret.
  destruct (world h (search_messages keyword 20 token true))
    as [[[[[found|]]|]]|e]; simpl;
    eexists; (split; [|split; [|rewrite <- ?app_assoc; simpl; rewrite ?app_nil_r;
                                reflexivity]]); reflexivity.
Qed.

Lemma search_all_run keywords :
  forall allResults h,
  exists h',
    search_all world token keywords allResults h
    = (h ++ h', Normal (allResults ++ pool_of (searches h')))
    /\ requests h' = map (fun k => search_messages k 20 token true) keywords
    /\ map fst (searches h') = keywords.
Proof.
  induction keywords as [|keyword rest IH]; intros allResults h; simpl.
  - exists []. unfold ret, pool_of. simpl. now rewrite !app_nil_r.
  - unfold bind.
    destruct (search_one_run keyword allResults h) as (logs & Hreq & Hsea & ->).
    set (q := search_messages keyword 20 token true).
    set (e := Called q (world h q)).
    destruct (IH (allResults ++ hits_of_reply (world h q)) (h ++ e :: logs))
      as (h2 & -> & Hreq2 & Hsea2).
    exists ((e :: logs) ++ h2). repeat split.
    + rewrite app_assoc. f_equal. f_equal.
      rewrite searches_app. simpl. rewrite Hsea. simpl.
      change ((keyword, world h q) :: searches h2)
        with ([(keyword, world h q)] ++ searches h2).
      rewrite pool_of_app, app_assoc. f_equal.
      unfold pool_of. simpl. now rewrite app_nil_r.
    + rewrite requests_app. simpl. now rewrite Hreq, Hreq2.
    + rewrite searches_app. simpl. rewrite Hsea. simpl. now rewrite Hsea2.
Qed.

Lemma extends_search_all keywords allResults :
  extends (search_all world token keywords allResults).
Proof.
  intros h. destruct (search_all_run keywords allResults h) as (h' & -> & _).
  now eexists _, _.
Qed.

Lemma extends_rank_and_present query allResults :
  extends (rank_and_present world query allResults).
Proof. unfold rank_and_present. extends_tac. Qed.

Lemma extends_search_and_rank query keywords :
  extends (search_and_rank world token query keywords).
Proof.
  unfold search_and_rank. apply extends_bind.
  - apply extends_search_all.
  - intros allResults. destruct (0 <? length allResults)%nat.
    + apply extends_rank_and_present.
    + apply extends_ret.
Qed.

Lemma extends_expand_and_search query :
  extends (expand_and_search world token query).
Proof.
  unfold expand_and_search. extends_tac. apply extends_search_and_rank.
Qed.

(** Ranking starts with the completion request that carries the pool. *)
Lemma rank_and_present_first query allResults h :
  exists h' out,
    rank_and_present world query allResults h
    = (h ++ Called (chat_completions_create MODEL 1
                      [system_message; user_prompt (evaluationPrompt query allResults)])
              (world h (chat_completions_create MODEL 1
                          [system_message;
                           user_prompt (evaluationPrompt query allResults)])) :: h',
       out).
Proof.
  unfold rank_and_present. apply bind_call_first. intros a. extends_tac.
Qed.

(** Expansion starts with the completion request built from the query. *)
Lemma expand_and_search_first query h :
  exists h' out,
    expand_and_search world token query h
    = (h ++ Called (chat_completions_create MODEL 1
                      [system_message; user_prompt (prompt query)])
              (world h (chat_completions_create MODEL 1
                          [system_message; user_prompt (prompt query)])) :: h',
       out).
Proof.
  unfold expand_and_search. apply bind_call_first. intros a. extends_tac.
  apply extends_search_and_rank.
Qed.

End SearchLoop.

(** ** Partial failures of the searches *)

Lemma search_calls_of_requests token keywords h :
  requests h = map (fun k => search_messages k 20 token true) keywords ->
  search_calls h = map (fun k => (k, 20)) keywords
  /\ join_calls h = []
  /\ completion_calls h = []
  /\ said h = [].
Proof.
  unfold search_calls, join_calls, completion_calls, said. intros ->.
  induction keywords as [|k r (IH1 & IH2 & IH3 & IH4)]; simpl; [now repeat split|].
  rewrite IH1. now repeat split.
Qed.

Example search_all_two_of_three :
  let hitA := {| text := js "status update"; permalink := js "https://x.slack.com/p1" |} in
  let hitB := {| text := js "進捗報告です"; permalink := js "https://x.slack.com/p2" |} in
  let found k :=
    if jsstring_eqb k (js "b") then Thrown (PlatformError (js "ratelimited"))
    else if jsstring_eqb k (js "a")
         then Normal {| messages := Some {| matches := Some [hitA] |} |}
         else Normal {| messages := Some {| matches := Some [hitB; hitA] |} |} in
  snd (search_all (sample_world [] [] found) (js "xoxp") [js "a"; js "b"; js "c"] [] [])
  = Normal [hitA; hitB; hitA].
Proof. reflexivity. Qed.

(** C3: a run of the searches never raises, whatever number of them
    reject; it issues them in the order of the query list; the pool is the
    concatenation, in that order, of what each search contributed, a
    rejected search contributing nothing; and the hits so gathered go to
    the ranking: when the pool is not empty the next request is the
    ranking request built from exactly that pool. *)
Theorem search_all_tolerates_failures world token query keywords h :
  exists h',
    search_all world token keywords [] h = (h ++ h', Normal (pool_of (searches h')))
    /\ map fst (searches h') = keywords
    /\ (pool_of (searches h') <> [] ->
        exists r h'' out,
          search_and_rank world token query keywords h
          = (h ++ h'
               ++ Called (chat_completions_create MODEL 1
                            [system_message;
                             user_prompt (evaluationPrompt query (pool_of (searches h')))])
                    r :: h'',
             out)).
Proof.
  destruct (search_all_run world token keywords [] h) as (h' & Hrun & _ & Hkeys).
  simpl in Hrun. exists h'. split; [exact Hrun|]. split; [exact Hkeys|].
  intros Hpool. unfold search_and_rank, bind. rewrite Hrun.
  destruct (pool_of (searches h')) as [|hit pool] eqn:Hp; [congruence|].
  change (0 <? length (hit :: pool))%nat with true. cbv iota.
  destruct (rank_and_present_first world query (hit :: pool) (h ++ h'))
    as (h'' & out & ->).
  eexists _, h'', out. now rewrite <- app_assoc.
Qed.

Lemma search_all_tolerates_failures_witness :
  let hitB := {| text := js "進捗報告です"; permalink := js "https://x.slack.com/p2" |} in
  let found k :=
    if jsstring_eqb k (js "a") then Thrown (PlatformError (js "ratelimited"))
    else Normal {| messages := Some {| matches := Some [hitB] |} |} in
  exists h1 r h'' out,
    search_and_rank (sample_world [] (js "1") found) (js "xoxp") (js "q") [js "a"; js "b"] []
    = (h1 ++ Called (chat_completions_create MODEL 1
                       [system_message; user_prompt (evaluationPrompt (js "q") [hitB])])
               r :: h'',
       out).
Proof.
  intros hitB found.
  destruct (search_all_tolerates_failures (sample_world [] (js "1") found) (js "xoxp")
              (js "q") [js "a"; js "b"] [])
    as (h' & Hrun & _ & Hrank).
  assert (Hpool : pool_of (searches h') = [hitB]).
  { apply (f_equal snd) in Hrun. simpl in Hrun.
    injection Hrun as Hrun. symmetry. exact Hrun. }
  rewrite Hpool in Hrank.
  destruct Hrank as (r & h'' & out & Heq); [discriminate|].
  exists h', r, h'', out. exact Heq.
Defined.

(** When the only search rejects, the searches end normally with an empty
    pool, and no ranking request is sent. *)
Example search_failure_without_ranking :
  let found (_ : jsstring) : outcome search_response := Thrown (OtherError (js "timeout")) in
  exists h',
    search_and_rank (sample_world [] (js "1") found) (js "xoxp") (js "q") [js "a"] []
    = (h', Normal FellThrough)
    /\ map fst (searches h') = [js "a"]
    /\ completion_calls h' = [].
Proof. eexists. split; [reflexivity|]. split; reflexivity. Qed.

(** ** Recovery from a rejected call *)

(** The recovery of the channel-history request, call by call. *)
Lemma fetch_channelHistory_recovery (world : world_type) threadContext h :
  let ch := channel_id threadContext in
  let h1 := h ++ [Called (conversations_history ch 50)
                    (Thrown (PlatformError (js "not_in_channel")))] in
  let h2 := h1 ++ [Called (conversations_join ch) (Normal tt)] in
  world h (conversations_history ch 50) = Thrown (PlatformError (js "not_in_channel")) ->
  fetch_channelHistory world threadContext h
  = match world h1 (conversations_join ch) with
    | Normal _ =>
        (h2 ++ [Called (conversations_history ch 10)
                  (world h2 (conversations_history ch 10))],
         match world h2 (conversations_history ch 10) with
         | Normal history => Normal (Some history)
         | Thrown e => Thrown e
         end)
    | Thrown e => (h1 ++ [Called (conversations_join ch) (Thrown e)], Thrown e)
    end.
Proof.
  intros ch h1 h2 Hfirst. subst h2 h1 ch.
  unfold fetch_channelHistory, try_catch, bind, call, ret. cbv zeta.
  rewrite Hfirst. cbv beta iota. rewrite jsstring_eqb_refl. cbv beta iota.
  destruct (world _ (conversations_join _)) as [[]|e]; cbv beta iota;
    [|reflexivity].
  now destruct (world _ (conversations_history _ 10)) as [history|e].
Qed.

(** C6 (as amended): in the search loop a rejected search, whatever its
    error, is followed by no recovery and no retry: the loop issues one
    search per query, each with limit 20, and never asks to join.  The
    recovery exists on the channel-history request of the summary scenario
    only: when that request is rejected with [not_in_channel], the app asks
    exactly once to join the channel; the join accepted, it repeats the
    request exactly once, with limit 10, and the outcome is that of this
    second request; the join rejected, there is no second request and the
    rejection of the join is the outcome. *)
Theorem search_rejection_without_recovery (world : world_type) token keywords h :
  (exists h' pool,
      search_all world token keywords [] h = (h ++ h', Normal pool)
      /\ search_calls h' = map (fun k => (k, 20)) keywords
      /\ join_calls h' = [])
  /\ (forall threadContext,
         let ch := channel_id threadContext in
         let h1 := h ++ [Called (conversations_history ch 50)
                           (Thrown (PlatformError (js "not_in_channel")))] in
         let h2 := h1 ++ [Called (conversations_join ch) (Normal tt)] in
         world h (conversations_history ch 50)
         = Thrown (PlatformError (js "not_in_channel")) ->
         fetch_channelHistory world threadContext h
         = match world h1 (conversations_join ch) with
           | Normal _ =>
               (h2 ++ [Called (conversations_history ch 10)
                         (world h2 (conversations_history ch 10))],
                match world h2 (conversations_history ch 10) with
                | Normal history => Normal (Some history)
                | Thrown e => Thrown e
                end)
           | Thrown e => (h1 ++ [Called (conversations_join ch) (Thrown e)], Thrown e)
           end).
Proof.
  split.
  - destruct (search_all_run world token keywords [] h) as (h' & Hrun & Hreq & _).
    destruct (search_calls_of_requests token keywords h' Hreq) as (Hs & Hj & _).
    now exists h', ([] ++ pool_of (searches h')).
  - intros threadContext. apply fetch_channelHistory_recovery.
Qed.

Lemma search_rejection_without_recovery_witness :
  let ctx := {| channel_id := js "C0123" |} in
  let searched := search_all recovering_world (js "xoxp") [js "a"] [] [] in
  let run := fetch_channelHistory recovering_world ctx [] in
  search_calls (fst searched) = [(js "a", 20)]
  /\ join_calls (fst searched) = []
  /\ snd run = Normal (Some [])
  /\ join_calls (fst run) = [js "C0123"]
  /\ history_calls (fst run) = [(js "C0123", 50); (js "C0123", 10)].
Proof.
  intros ctx searched run.
  destruct (search_rejection_without_recovery recovering_world (js "xoxp")
              [js "a"] [])
    as [(h' & pool & Hsearch & Hcalls & Hjoin) Hrecovery].
  split; [subst searched; rewrite Hsearch; exact Hcalls|].
  split; [subst searched; rewrite Hsearch; exact Hjoin|].
  pose proof (Hrecovery ctx eq_refl) as Hrun.
  subst run. rewrite Hrun. vm_compute. repeat split.
Defined.

(** C6, the claim as stated fails: a search rejected with a membership
    error is followed by no request to join and by no second search; the
    only search is the one with limit 20. *)
Lemma search_rejection_counterexample :
  let found (_ : jsstring) : outcome search_response :=
    Thrown (PlatformError (js "not_in_channel")) in
  let h' := fst (search_all (sample_world [] [] found) (js "xoxp") [js "a"] [] []) in
  searches h' = [(js "a", Thrown (PlatformError (js "not_in_channel")))]
  /\ join_calls h' = []
  /\ search_calls h' = [(js "a", 20)].
Proof. repeat split. Qed.

(** ** Query extraction and the route through the handler *)

Section Prefixes.

Variable world : world_type.

Lemma bind_prefix {A B : Type} (m : M A) (k : A -> M B) h t :
  (exists h' out, m h = (h ++ t ++ h', out)) ->
  (forall a, extends (k a)) ->
  exists h' out, bind m k h = (h ++ t ++ h', out).
Proof.
  intros (h1 & [a|e] & Hm) Hk; unfold bind; rewrite Hm.
  - destruct (Hk a (h ++ t ++ h1)) as (h2 & out & ->).
    exists (h1 ++ h2), out. now rewrite <- !app_assoc.
  - now exists h1, (Thrown e).
Qed.

Lemma try_catch_prefix {A : Type} (m : M A) (handler : js_error -> M A) h t :
  (exists h' out, m h = (h ++ t ++ h', out)) ->
  (forall e, extends (handler e)) ->
  exists h' out, try_catch m handler h = (h ++ t ++ h', out).
Proof.
  intros (h1 & [a|e] & Hm) Hh; unfold try_catch; rewrite Hm.
  - now exists h1, (Normal a).
  - destruct (Hh e (h ++ t ++ h1)) as (h2 & out & ->).
    exists (h1 ++ h2), out. now rewrite <- !app_assoc.
Qed.

Lemma bind_call_normal {B : Type} (q : request) (k : reply_type q -> M B) h a :
  world h q = Normal a ->
  bind (call world q) k h = k a (h ++ [Called q (Normal a)]).
Proof. intros H. unfold bind, call. now rewrite H. Qed.

Lemma extends_answer_from_thread message :
  extends (answer_from_thread world message).
Proof. unfold answer_from_thread. cbv zeta. extends_tac. Qed.

End Prefixes.

Lemma startsWith_head c t p x :
  startsWith (c :: t) p = true -> hd_error p = Some x -> c = x.
Proof.
  destruct p as [|y p']; [discriminate|]. simpl. intros H E.
  injection E as ->. apply andb_true_iff in H as [H _]. apply N.eqb_eq in H. now subst.
Qed.

Lemma jsstring_eqb_head c t s y :
  hd_error s = Some y -> c <> y -> jsstring_eqb (c :: t) s = false.
Proof.
  destruct s as [|z s']; [discriminate|]. simpl. intros E Hne.
  injection E as ->. apply N.eqb_neq in Hne. now rewrite Hne.
Qed.

Lemma fuzzy_prefix_not_summarize txt :
  startsWith txt FUZZY_PREFIX = true -> jsstring_eqb txt SUMMARIZE_PROMPT = false.
Proof.
  assert (HF : hd_error FUZZY_PREFIX = Some 0x46) by (vm_compute; reflexivity).
  assert (HS : hd_error SUMMARIZE_PROMPT = Some 0x41) by (vm_compute; reflexivity).
  destruct txt as [|c t]; intros H.
  - destruct FUZZY_PREFIX; discriminate.
  - apply (jsstring_eqb_head c t _ _ HS).
    rewrite (startsWith_head c t _ _ H HF). discriminate.
Qed.

(** The tokens of a text with two colons after colon-free segments. *)
Lemma split_two_colons a b c :
  forallb (fun u => negb (is_colon u)) a = true ->
  forallb (fun u => negb (is_colon u)) b = true ->
  split_on is_colon (a ++ 0x3A :: b ++ 0x3A :: c) = a :: b :: split_on is_colon c.
Proof.
  intros Ha Hb.
  rewrite (split_on_app_sep is_colon a 0x3A _ Ha eq_refl).
  now rewrite (split_on_app_sep is_colon b 0x3A _ Hb eq_refl).
Qed.

Example fuzzy_query_ex :
  trim (nth 1 (split_on is_colon (js "Fuzzy search: foo: bar")) []) = js "foo".
Proof. reflexivity. Qed.

Lemma fuzzy_search_two_colons world token a b c h :
  forallb (fun u => negb (is_colon u)) a = true ->
  forallb (fun u => negb (is_colon u)) b = true ->
  exists h' out,
    fuzzy_search world token (a ++ 0x3A :: b ++ 0x3A :: c) h
    = (h ++ [Called (chat_completions_create MODEL 1
                       [system_message; user_prompt (prompt (trim b))])
               (world h (chat_completions_create MODEL 1
                           [system_message; user_prompt (prompt (trim b))]))] ++ h',
       out).
Proof.
  intros Ha Hb. unfold fuzzy_search. rewrite (split_two_colons a b c Ha Hb).
  cbv zeta.
  change (nth 1 (a :: b :: split_on is_colon c) []) with b.
  match goal with
  | |- context [Nat.ltb ?x ?y] => destruct (Nat.ltb_spec x y) as [Hlt|_]
  end; [simpl in Hlt; lia|].
  destruct (expand_and_search_first world token (trim b) h) as (h' & out & ->).
  now exists h', out.
Qed.

Lemma forallb_rev {A : Type} (P : A -> bool) l : forallb P (rev l) = forallb P l.
Proof.
  induction l as [|x r IH]; [reflexivity|].
  simpl. rewrite forallb_app, IH. simpl. rewrite andb_true_r. apply andb_comm.
Qed.

Lemma trimStart_blank_prefix p s :
  forallb isWhiteSpace p = true -> trimStart (p ++ s) = trimStart s.
Proof.
  induction p as [|c r IH]; intros H; [reflexivity|].
  simpl in H |- *. apply andb_true_iff in H as [Hc Hr]. rewrite Hc. now apply IH.
Qed.

Lemma trim_blank_prefix p s :
  forallb isWhiteSpace p = true -> trim (p ++ s) = trim s.
Proof. intros H. unfold trim. now rewrite trimStart_blank_prefix. Qed.

Lemma blank_not_colon c : isWhiteSpace c = true -> is_colon c = false.
Proof.
  intros Hc. unfold is_colon. destruct (N.eqb_spec c 0x3A) as [->|_]; [|reflexivity].
  discriminate Hc.
Qed.

(** Trimming removes the blanks around a text that has none at its ends. *)
Lemma trim_between_blanks lead query trail :
  forallb isWhiteSpace lead = true ->
  forallb isWhiteSpace trail = true ->
  trimmed query = true ->
  trim (lead ++ query ++ trail) = query.
Proof.
  intros Hlead Htrail Hquery. rewrite (trim_blank_prefix _ _ Hlead).
  unfold trimmed in Hquery. apply andb_true_iff in Hquery as [Hfirst Hlast].
  unfold trim, trimEnd. destruct query as [|c r].
  - cbn [app]. rewrite <- (app_nil_r trail) at 1.
    now rewrite (trimStart_blank_prefix _ _ Htrail).
  - apply negb_true_iff in Hfirst. cbn [app trimStart]. rewrite Hfirst.
    change (c :: r ++ trail) with ((c :: r) ++ trail).
    rewrite rev_app_distr, trimStart_blank_prefix by now rewrite forallb_rev.
    destruct (rev (c :: r)) as [|d r'] eqn:Hrev.
    + apply (f_equal (@rev code_unit)) in Hrev. rewrite rev_involutive in Hrev.
      discriminate Hrev.
    + apply negb_true_iff in Hlast. cbn [trimStart]. rewrite Hlast, <- Hrev.
      apply rev_involutive.
Qed.

(** The segment between the first two colons is what the expansion is
    asked about. *)
Lemma userMessage_segment_between_colons (world : world_type) token message a b c h :
  forallb (fun u => negb (is_colon u)) a = true ->
  forallb (fun u => negb (is_colon u)) b = true ->
  msg_text message = a ++ 0x3A :: b ++ 0x3A :: c ->
  startsWith (msg_text message) FUZZY_PREFIX = true ->
  world h (setTitle (msg_text message)) = Normal tt ->
  world (h ++ [Called (setTitle (msg_text message)) (Normal tt)])
    (setStatus (js "is typing..")) = Normal tt ->
  nth 1 (split_on is_colon (msg_text message)) [] = b
  /\ exists r h' out,
      userMessage world token message h
      = (h ++ [Called (setTitle (msg_text message)) (Normal tt);
               Called (setStatus (js "is typing..")) (Normal tt);
               Called (chat_completions_create MODEL 1
                         [system_message; user_prompt (prompt (trim b))]) r] ++ h',
         out).
Proof.
  intros Ha Hb Htxt Hstart Htitle Hstatus. split.
  - rewrite Htxt, (split_two_colons a b c Ha Hb). reflexivity.
  - set (e1 := Called (setTitle (msg_text message)) (Normal tt)) in *.
    set (e2 := Called (setStatus (js "is typing..")) (Normal tt)).
    set (q := chat_completions_create MODEL 1
                [system_message; user_prompt (prompt (trim b))]).
    exists (world ((h ++ [e1]) ++ [e2]) q).
    unfold userMessage.
    apply (try_catch_prefix _ _ h [e1; e2; Called q (world ((h ++ [e1]) ++ [e2]) q)]);
      [|intros e; extends_tac].
    rewrite (bind_call_normal world (setTitle (msg_text message)) _ h tt Htitle).
    rewrite (bind_call_normal world (setStatus (js "is typing..")) _ (h ++ [e1]) tt
               Hstatus).
    rewrite (fuzzy_prefix_not_summarize _ Hstart), Hstart. cbv beta iota.
    destruct (bind_prefix (fuzzy_search world token (msg_text message))
                (fun c0 => match c0 with
                           | Returned => ret tt
                           | FellThrough => answer_from_thread world message
                           end)
                ((h ++ [e1]) ++ [e2])
                [Called q (world ((h ++ [e1]) ++ [e2]) q)])
      as (h' & out & Hrun).
    + rewrite Htxt. apply fuzzy_search_two_colons; assumption.
    + intros [|]; [apply extends_ret|apply extends_answer_from_thread].
    + exists h', out. refine (eq_trans Hrun _). now rewrite <- !app_assoc.
Qed.

(** C10: in a message with more than one colon, the query is the segment
    between the first and the second colon, trimmed: written as blanks,
    then a text with no blank at its ends, then blanks, the segment gives
    that text as the query.  The text after the second colon plays no
    part: whatever it is, the handler, once the title and the status are
    set, sends as its first completion request the expansion prompt built
    from that query alone. *)
Theorem userMessage_query_between_colons (world : world_type) token message
  a lead query trail c h :
  forallb (fun u => negb (is_colon u)) a = true ->
  forallb (fun u => negb (is_colon u)) query = true ->
  forallb isWhiteSpace lead = true ->
  forallb isWhiteSpace trail = true ->
  trimmed query = true ->
  msg_text message = a ++ 0x3A :: (lead ++ query ++ trail) ++ 0x3A :: c ->
  startsWith (msg_text message) FUZZY_PREFIX = true ->
  world h (setTitle (msg_text message)) = Normal tt ->
  world (h ++ [Called (setTitle (msg_text message)) (Normal tt)])
    (setStatus (js "is typing..")) = Normal tt ->
  nth 1 (split_on is_colon (msg_text message)) [] = lead ++ query ++ trail
  /\ trim (lead ++ query ++ trail) = query
  /\ exists r h' out,
      userMessage world token message h
      = (h ++ [Called (setTitle (msg_text message)) (Normal tt);
               Called (setStatus (js "is typing..")) (Normal tt);
               Called (chat_completions_create MODEL 1
                         [system_message; user_prompt (prompt query)]) r] ++ h',
         out).
Proof.
  intros Ha Hquery Hlead Htrail Htrimmed Htxt Hstart Htitle Hstatus.
  assert (Hblank : forall p, forallb isWhiteSpace p = true ->
                             forallb (fun u => negb (is_colon u)) p = true).
  { induction p as [|u p IH]; [reflexivity|]. cbn [forallb]. intros Hp.
    apply andb_true_iff in Hp as [Hu Hp].
    now rewrite (blank_not_colon u Hu), (IH Hp). }
  assert (Hb : forallb (fun u => negb (is_colon u)) (lead ++ query ++ trail) = true).
  { now rewrite !forallb_app, (Hblank lead Hlead), (Hblank trail Htrail), Hquery. }
  destruct (userMessage_segment_between_colons world token message a
              (lead ++ query ++ trail) c h Ha Hb Htxt Hstart Htitle Hstatus)
    as [Hsegment Hrun].
  rewrite (trim_between_blanks lead query trail Hlead Htrail Htrimmed) in Hrun.
  split; [exact Hsegment|]. split; [|exact Hrun].
  exact (trim_between_blanks lead query trail Hlead Htrail Htrimmed).
Qed.

Lemma userMessage_query_between_colons_witness :
  let world := sample_world (js "foo") (js "1") (fun _ => Normal {| messages := None |}) in
  let message := sample_message (js "Fuzzy search: foo bar : baz: qux") in
  nth 1 (split_on is_colon (msg_text message)) [] = js " " ++ js "foo bar" ++ js " "
  /\ trim (js " " ++ js "foo bar" ++ js " ") = js "foo bar"
  /\ exists r h' out,
      userMessage world (js "xoxp") message []
      = ([] ++ [Called (setTitle (msg_text message)) (Normal tt);
                Called (setStatus (js "is typing..")) (Normal tt);
                Called (chat_completions_create MODEL 1
                          [system_message; user_prompt (prompt (js "foo bar"))]) r]
            ++ h',
         out).
Proof.
  intros world message.
  apply (userMessage_query_between_colons world (js "xoxp") message
           (js "Fuzzy search") (js " ") (js "foo bar") (js " ") (js " baz: qux") []);
    vm_compute; reflexivity.
Defined.

(** ** The empty query *)

Example userMessage_without_colon :
  let world := sample_world (js "foo") (js "1") (fun _ => Normal {| messages := None |}) in
  let h := fst (userMessage world (js "xoxp") (sample_message (js "Fuzzy search")) []) in
  said h = [USAGE_HINT] /\ completion_calls h = [].
Proof. vm_compute. split; reflexivity. Qed.

(** C5, evaluated at the message ["Fuzzy search:"]: the text has a colon,
    so the usage hint is not given; the query is the empty string and the
    first thing the fuzzy search does is to send the expansion prompt
    built from it to the completion service. *)
Theorem fuzzy_search_empty_query_expands (world : world_type) token h :
  trim (nth 1 (split_on is_colon (js "Fuzzy search:")) []) = []
  /\ exists r h' out,
      fuzzy_search world token (js "Fuzzy search:") h
      = (h ++ Called (chat_completions_create MODEL 1
                        [system_message; user_prompt (prompt [])]) r :: h',
         out).
Proof.
  assert (Hparts : split_on is_colon (js "Fuzzy search:") = [js "Fuzzy search"; []])
    by (vm_compute; reflexivity).
  split; [rewrite Hparts; reflexivity|].
  unfold fuzzy_search. rewrite Hparts. cbv zeta.
  change (length [js "Fuzzy search"; []] <? 2)%nat with false.
  change (trim (nth 1 [js "Fuzzy search"; []] [])) with (@nil code_unit).
  cbv beta iota.
  destruct (expand_and_search_first world token [] h) as (h' & out & ->).
  now eexists _, h', out.
Qed.

Example userMessage_empty_query :
  let world := sample_world (js "foo") (js "1") (fun _ => Normal {| messages := None |}) in
  let h := fst (userMessage world (js "xoxp") (sample_message (js "Fuzzy search:")) []) in
  hd_error (completion_calls h) = Some [system_message; user_prompt (prompt [])]
  /\ said h = [js "キーワードfoo"; js "1"]
  /\ ~ In USAGE_HINT (said h).
Proof.
  vm_compute. split; [reflexivity|]. split; [reflexivity|].
  intros [H|[H|[]]]; discriminate H.
Qed.

(** ** The empty pool *)

(** With an empty pool the fuzzy search posts nothing more and reaches the
    end of its block without a [return]. *)
Lemma search_and_rank_empty_pool (world : world_type) token query keywords h :
  exists h',
    search_all world token keywords [] h = (h ++ h', Normal (pool_of (searches h')))
    /\ said h' = []
    /\ (pool_of (searches h') = [] ->
        search_and_rank world token query keywords h = (h ++ h', Normal FellThrough)).
Proof.
  destruct (search_all_run world token keywords [] h) as (h' & Hrun & Hreq & _).
  simpl in Hrun. exists h'. split; [exact Hrun|]. split.
  - now destruct (search_calls_of_requests token keywords h' Hreq) as (_ & _ & _ & ?).
  - intros Hpool. unfold search_and_rank, bind. rewrite Hrun, Hpool. reflexivity.
Qed.

(** C4, evaluated at the message ["Fuzzy search: foo"] when every search
    is rejected: the pool is empty, no ranking request is sent, but the
    handler goes on to the general answer: it sends the thread to the
    completion service and posts that answer; the message for no results
    is not posted. *)
Theorem userMessage_empty_pool_falls_through :
  let found (_ : jsstring) : outcome search_response := Thrown (OtherError (js "timeout")) in
  let world := sample_world (js "foo, bar") (js "chat answer") found in
  let message := sample_message (js "Fuzzy search: foo") in
  let h := fst (userMessage world (js "xoxp") message []) in
  map fst (searches h) = [js "foo"; js "bar"]
  /\ pool_of (searches h) = []
  /\ completion_calls h
     = [[system_message; user_prompt (prompt (js "foo"))];
        [system_message; user_prompt (js "Fuzzy search: foo")]]
  /\ said h = [js "キーワードfoo,bar"; js "chat answer"]
  /\ ~ In NO_RELEVANT (said h).
Proof.
  vm_compute. repeat (split; [reflexivity|]).
  intros [H|[H|[]]]; discriminate H.
Qed.

(** When the ranking leaves nothing, on the other hand, the message for no
    results is posted. *)
Example userMessage_nothing_relevant :
  let hitA := {| text := js "status update"; permalink := js "https://x.slack.com/p1" |} in
  let found (_ : jsstring) := Normal {| messages := Some {| matches := Some [hitA] |} |} in
  let world := sample_world (js "foo") (js "none") found in
  let h := fst (userMessage world (js "xoxp") (sample_message (js "Fuzzy search: foo")) []) in
  said h = [js "キーワードfoo"; NO_RELEVANT].
Proof. vm_compute. reflexivity. Qed.

(** The scenario of the specification: the ranking ["2, 1, 1"] over the
    pool [[A; B]] is answered with [B] then [A]. *)
Example userMessage_ranked :
  let hitA := {| text := js "status update"; permalink := js "https://x.slack.com/p1" |} in
  let hitB := {| text := js "進捗報告です"; permalink := js "https://x.slack.com/p2" |} in
  let found k :=
    if jsstring_eqb k (js "進捗報告")
    then Normal {| messages := Some {| matches := Some [hitB] |} |}
    else Normal {| messages := Some {| matches := Some [hitA] |} |} in
  let world := sample_world (js "progress report OR status update, 進捗報告") (js "2, 1, 1") found in
  let h := fst (userMessage world (js "xoxp")
                  (sample_message (js "Fuzzy search: progress report")) []) in
  said h = [js "キーワードprogress report OR status update,進捗報告";
            responseText [hitB; hitA]].
Proof. vm_compute. reflexivity. Qed.

(** * Further properties of the handlers *)

(** ** Trimming *)

Lemma trimStart_cases s :
  (trimStart s = [] /\ forallb isWhiteSpace s = true)
  \/ (exists c r, trimStart s = c :: r /\ isWhiteSpace c = false).
Proof.
  induction s as [|c r IH]; simpl; [now left|].
  destruct (isWhiteSpace c) eqn:Hc; simpl; [exact IH|].
  right. now exists c, r.
Qed.

Lemma trimStart_nil_iff s : trimStart s = [] <-> forallb isWhiteSpace s = true.
Proof.
  induction s as [|c r IH]; simpl; [tauto|].
  destruct (isWhiteSpace c); simpl; [exact IH|].
  split; discriminate.
Qed.

Lemma trimStart_suffix s : exists p, s = p ++ trimStart s.
Proof.
  induction s as [|c r [p IH]]; simpl; [now exists []|].
  destruct (isWhiteSpace c).
  - exists (c :: p). simpl. now rewrite <- IH.
  - now exists [].
Qed.

Lemma forallb_trimStart (P : code_unit -> bool) s :
  forallb P s = true -> forallb P (trimStart s) = true.
Proof.
  intros H. destruct (trimStart_suffix s) as [p Hp].
  rewrite Hp, forallb_app in H. now apply andb_true_iff in H as [_ H].
Qed.

Lemma forallb_trim (P : code_unit -> bool) s :
  forallb P s = true -> forallb P (trim s) = true.
Proof.
  intros H. unfold trim, trimEnd.
  rewrite forallb_rev. apply forallb_trimStart.
  rewrite forallb_rev. now apply forallb_trimStart.
Qed.

(** A text is trimmed to nothing exactly when it is all blanks. *)
Lemma trim_nil_iff s : trim s = [] <-> forallb isWhiteSpace s = true.
Proof.
  unfold trim, trimEnd. split.
  - intros H. apply (f_equal (@rev code_unit)) in H. rewrite rev_involutive in H.
    simpl in H. apply trimStart_nil_iff in H. rewrite forallb_rev in H.
    destruct (trimStart_cases s) as [[_ Hall]|(c & r & Hs & Hc)]; [exact Hall|].
    rewrite Hs in H. simpl in H. now rewrite Hc in H.
  - intros H. apply trimStart_nil_iff in H. now rewrite H.
Qed.

(** A text that neither starts nor ends with a blank is left as it is. *)
Lemma trim_fixed s c r d r' :
  s = c :: r -> isWhiteSpace c = false ->
  rev s = d :: r' -> isWhiteSpace d = false ->
  trim s = s.
Proof.
  intros Hs Hc Hr Hd. unfold trim, trimEnd.
  assert (H1 : trimStart s = s) by (rewrite Hs; simpl; now rewrite Hc).
  rewrite H1, Hr. simpl. rewrite Hd. rewrite <- Hr. apply rev_involutive.
Qed.

(** What [trim] returns is empty or has no blank at either end. *)
Lemma trim_borders s :
  trim s = []
  \/ exists c r d r',
      trim s = c :: r /\ isWhiteSpace c = false
      /\ rev (trim s) = d :: r' /\ isWhiteSpace d = false.
Proof.
  unfold trim, trimEnd.
  destruct (trimStart_cases s) as [[Hs _]|(c & r & Hs & Hc)].
  - left. now rewrite Hs.
  - right. rewrite Hs.
    destruct (trimStart_cases (rev (c :: r))) as [[_ Hall]|(d & u & Hu & Hd)].
    + rewrite forallb_rev in Hall. simpl in Hall. now rewrite Hc in Hall.
    + destruct (trimStart_suffix (rev (c :: r))) as [p Hp].
      rewrite Hu in Hp |- *. rewrite rev_involutive.
      apply (f_equal (@rev code_unit)) in Hp.
      rewrite rev_involutive, rev_app_distr in Hp.
      destruct (rev (d :: u)) as [|x xs] eqn:Hx.
      * apply (f_equal (@length code_unit)) in Hx. rewrite length_rev in Hx.
        discriminate Hx.
      * simpl in Hp. injection Hp as <- _.
        exists c, xs, d, u. repeat split; assumption.
Qed.

Lemma trim_idempotent s : trim (trim s) = trim s.
Proof.
  destruct (trim_borders s) as [H|(c & r & d & r' & Hs & Hc & Hr & Hd)].
  - rewrite H. reflexivity.
  - apply (trim_fixed _ c r d r'); assumption.
Qed.

(** ** The keywords *)

Lemma split_runs_from_no_sep sep b s :
  Forall (fun tok => forallb (fun c => negb (sep c)) tok = true)
    (split_runs_from sep b s).
Proof.
  revert b. induction s as [|c r IH]; intros b; simpl.
  - now repeat constructor.
  - destruct (sep c) eqn:Hc.
    + destruct b; [apply IH|constructor; [reflexivity|apply IH]].
    + specialize (IH false).
      destruct (split_runs_from sep false r) as [|tok toks].
      * constructor; [simpl; now rewrite Hc|constructor].
      * inversion IH as [|? ? Htok Htoks]; subst.
        constructor; [simpl; now rewrite Hc, Htok|exact Htoks].
Qed.

Lemma parse_keywords_clean content :
  forallb clean_token (parse_keywords content) = true.
Proof.
  apply forallb_forall. intros k Hk. unfold parse_keywords in Hk.
  apply filter_In in Hk as [Hk Hne]. apply in_map_iff in Hk as (tok & <- & Htok).
  unfold clean_token. rewrite Hne, trim_idempotent, jsstring_eqb_refl.
  rewrite !andb_true_r. apply forallb_trim.
  pose proof (split_runs_from_no_sep is_newline_or_comma false content) as Hall.
  rewrite Forall_forall in Hall. now apply Hall.
Qed.

(** X1: every keyword parsed from an expansion response is non-empty,
    contains neither a newline nor a comma, and has no blank at either
    end; therefore the comma-joined list that the handler posts to the
    user parses back into exactly the same keywords. *)
Theorem parse_keywords_round_trip content :
  Forall (fun k => k <> []
                   /\ forallb (fun c => negb (is_newline_or_comma c)) k = true
                   /\ trim k = k)
    (parse_keywords content)
  /\ parse_keywords (join (js ",") (parse_keywords content)) = parse_keywords content.
Proof.
  pose proof (parse_keywords_clean content) as Hclean. split.
  - apply Forall_forall. intros k Hk.
    rewrite forallb_forall in Hclean. specialize (Hclean k Hk).
    unfold clean_token in Hclean.
    apply andb_true_iff in Hclean as [Hclean Htrim].
    apply andb_true_iff in Hclean as [Hsep Hne].
    apply negb_true_iff, jsstring_eqb_neq in Hne. apply jsstring_eqb_eq in Htrim.
    now repeat split.
  - now apply parse_keywords_join_clean.
Qed.

Lemma split_on_tokens_forall sep (P : code_unit -> bool) s :
  forallb (forallb P) (split_on sep s) = forallb (fun c => sep c || P c) s.
Proof.
  induction s as [|c r IH]; [reflexivity|].
  simpl. destruct (sep c); simpl; [exact IH|].
  pose proof (split_on_not_nil sep r) as Hne.
  destruct (split_on sep r) as [|tok toks]; [congruence|].
  simpl in IH |- *. rewrite <- IH. now rewrite andb_assoc.
Qed.

Lemma kept_tokens_nil_iff l :
  kept_tokens l = [] <-> forallb (forallb isWhiteSpace) l = true.
Proof.
  induction l as [|x r IH]; [simpl; tauto|].
  rewrite kept_tokens_cons. simpl.
  destruct (jsstring_eqb (trim x) []) eqn:Hx; simpl.
  - apply jsstring_eqb_eq, trim_nil_iff in Hx. rewrite Hx. exact IH.
  - split; [discriminate|]. intros H. apply andb_true_iff in H as [H _].
    apply trim_nil_iff, jsstring_eqb_eq in H. congruence.
Qed.

(** X2: an expansion response gives no keyword at all exactly when it is
    made of blanks, newlines and commas only (the empty response
    included); any other response gives at least one keyword. *)
Theorem parse_keywords_nil_iff content :
  parse_keywords content = [] <-> forallb blank_or_separator content = true.
Proof.
  rewrite parse_keywords_spec_keywords. unfold spec_keywords.
  change (filter (fun k => negb (jsstring_eqb k []))
            (map trim (split_on is_newline_or_comma content)))
    with (kept_tokens (split_on is_newline_or_comma content)).
  rewrite kept_tokens_nil_iff, split_on_tokens_forall.
  unfold blank_or_separator.
  replace (forallb (fun c => is_newline_or_comma c || isWhiteSpace c) content)
    with (forallb (fun c => isWhiteSpace c || is_newline_or_comma c) content);
    [tauto|].
  induction content as [|c r IH]; [reflexivity|].
  simpl. now rewrite IH, orb_comm.
Qed.

(** ** Printed and parsed indexes *)

Lemma divmod10 n : n = 10 * (n / 10) + n mod 10 /\ n mod 10 < 10.
Proof.
  split; [apply N.div_mod; discriminate|apply N.mod_lt; discriminate].
Qed.

Ltac by_divmod10 n :=
  let D := fresh "D" in
  pose proof (divmod10 n) as D; revert D;
  generalize (n / 10) (n mod 10); intros; lia.

Lemma is_digit_range c : is_digit c = true <-> 0x30 <= c <= 0x39.
Proof.
  unfold is_digit. rewrite andb_true_iff, !N.leb_le. tauto.
Qed.

Lemma is_digit_not_blank c : is_digit c = true -> isWhiteSpace c = false.
Proof.
  intros H. apply is_digit_range in H.
  assert (Hc : c = 48 \/ c = 49 \/ c = 50 \/ c = 51 \/ c = 52
               \/ c = 53 \/ c = 54 \/ c = 55 \/ c = 56 \/ c = 57) by lia.
  repeat (destruct Hc as [->|Hc]; [reflexivity|]). now subst.
Qed.

Lemma is_digit_not_comma c : is_digit c = true -> is_comma c = false.
Proof.
  intros H. apply is_digit_range in H. unfold is_comma. apply N.eqb_neq. lia.
Qed.

Lemma digit_value_digit c :
  is_digit c = true -> digit_value 10 c = Some (Z.of_N (c - 0x30)).
Proof.
  intros H. unfold digit_value. rewrite H. apply is_digit_range in H.
  destruct (Z.ltb_spec (Z.of_N (c - 48)) 10); [reflexivity|lia].
Qed.

Lemma is_digit_of_remainder n : is_digit (0x30 + n mod 10) = true.
Proof. apply is_digit_range. by_divmod10 n. Qed.

Lemma decimal_digits_all_digits fuel :
  forall n acc,
    forallb is_digit acc = true -> forallb is_digit (decimal_digits fuel n acc) = true.
Proof.
  induction fuel as [|f IH]; intros n acc Hacc; cbn [decimal_digits]; [exact Hacc|].
  destruct (n <? 10).
  - cbn [forallb]. now rewrite is_digit_of_remainder.
  - apply IH. cbn [forallb]. now rewrite is_digit_of_remainder.
Qed.

Lemma decimal_digits_not_nil fuel n acc : decimal_digits (S fuel) n acc <> [].
Proof.
  revert n acc. induction fuel as [|f IH]; intros n acc; simpl.
  - destruct (n <? 10); discriminate.
  - destruct (n <? 10); [discriminate|]. apply IH.
Qed.

(** Reading back the digits written for [n] adds [n] behind what was read
    before. *)
Lemma decimal_digits_S fuel n acc :
  decimal_digits (S fuel) n acc
  = if n <? 10 then (0x30 + n mod 10) :: acc
    else decimal_digits fuel (n / 10) ((0x30 + n mod 10) :: acc).
Proof. reflexivity. Qed.

Lemma parse_digits_cons_digit a n acc :
  parse_digits 10 a ((0x30 + n mod 10) :: acc)
  = parse_digits 10 (a * 10 + Z.of_N (n mod 10))%Z acc.
Proof.
  cbn [parse_digits]. rewrite (digit_value_digit _ (is_digit_of_remainder n)).
  f_equal. by_divmod10 n.
Qed.

Lemma parse_decimal_digits fuel :
  forall n,
    n < 2 ^ N.of_nat (S fuel) ->
    exists m : Z,
      forall acc a,
        parse_digits 10 a (decimal_digits (S fuel) n acc)
        = parse_digits 10 (a * m + Z.of_N n)%Z acc.
Proof.
  induction fuel as [|f IH]; intros n Hn.
  - exists 10%Z. intros acc a. rewrite decimal_digits_S.
    change (2 ^ N.of_nat 1) with 2 in Hn.
    destruct (N.ltb_spec n 10) as [_|?]; [|lia].
    rewrite parse_digits_cons_digit. f_equal. by_divmod10 n.
  - destruct (N.ltb_spec n 10) as [Hlt|Hge].
    + exists 10%Z. intros acc a. rewrite decimal_digits_S.
      destruct (N.ltb_spec n 10) as [_|?]; [|lia].
      rewrite parse_digits_cons_digit. f_equal. by_divmod10 n.
    + destruct (IH (n / 10)) as [m Hm].
      { rewrite Nat2N.inj_succ, N.pow_succ_r' in Hn.
        revert Hn. generalize (2 ^ N.of_nat (S f)). intros p Hn. by_divmod10 n. }
      exists (m * 10)%Z. intros acc a. rewrite (decimal_digits_S (S f)).
      destruct (N.ltb_spec n 10) as [?|_]; [lia|].
      rewrite Hm, parse_digits_cons_digit. f_equal. by_divmod10 n.
Qed.

Lemma number_toString_digits n :
  number_toString n <> [] /\ forallb is_digit (number_toString n) = true.
Proof.
  unfold number_toString. split.
  - apply decimal_digits_not_nil.
  - now apply decimal_digits_all_digits.
Qed.

Lemma parse_digits_number_toString n :
  parse_digits 10 0 (number_toString n) = Z.of_N n.
Proof.
  unfold number_toString.
  destruct (parse_decimal_digits (N.to_nat (N.log2 n)) n) as [m Hm].
  - rewrite Nat2N.inj_succ, N2Nat.id.
    destruct n as [|p]; [reflexivity|]. apply N.log2_spec. reflexivity.
  - rewrite Hm. reflexivity.
Qed.

(** On a text of decimal digits [parseInt] reads the whole text. *)
Lemma parseInt_digits s :
  s <> [] -> forallb is_digit s = true -> parseInt s = Num (parse_digits 10 0 s).
Proof.
  destruct s as [|c r]; [congruence|]. intros _ Hall.
  cbn [forallb] in Hall. apply andb_true_iff in Hall as [Hc Hr].
  pose proof (proj1 (is_digit_range c) Hc) as Hrange.
  assert (H45 : (c =? 45) = false) by (apply N.eqb_neq; lia).
  assert (H43 : (c =? 43) = false) by (apply N.eqb_neq; lia).
  unfold parseInt. cbn [trimStart].
  rewrite (is_digit_not_blank c Hc), H45, H43.
  destruct r as [|c1 r'].
  - cbv beta iota zeta. rewrite (digit_value_digit c Hc).
    f_equal. now destruct (parse_digits 10 0 [c]).
  - cbn [forallb] in Hr. apply andb_true_iff in Hr as [Hc1 _].
    apply is_digit_range in Hc1.
    assert (H120 : (c1 =? 120) = false) by (apply N.eqb_neq; lia).
    assert (H88 : (c1 =? 88) = false) by (apply N.eqb_neq; lia).
    cbv beta iota zeta. rewrite H120, H88, andb_false_r.
    cbv beta iota zeta. rewrite (digit_value_digit c Hc).
    f_equal. now destruct (parse_digits 10 0 (c :: c1 :: r')).
Qed.

Lemma parseInt_number_toString n : parseInt (number_toString n) = Num (Z.of_N n).
Proof.
  destruct (number_toString_digits n) as [Hne Hall].
  now rewrite (parseInt_digits _ Hne Hall), parse_digits_number_toString.
Qed.

(** A text without any blank is left as it is by [trim]. *)
Lemma trim_no_blank s :
  forallb (fun c => negb (isWhiteSpace c)) s = true -> trim s = s.
Proof.
  intros Hall. destruct s as [|c r] eqn:Hs; [reflexivity|]. rewrite <- Hs in *.
  destruct (rev s) as [|d r'] eqn:Hr.
  - apply (f_equal (@length code_unit)) in Hr. rewrite length_rev, Hs in Hr.
    discriminate Hr.
  - rewrite forallb_forall in Hall.
    apply (trim_fixed s c r d r'); try assumption.
    + apply negb_true_iff, Hall. rewrite Hs. now left.
    + apply negb_true_iff, Hall, in_rev. rewrite Hr. now left.
Qed.

Lemma digits_no_blank s :
  forallb is_digit s = true -> forallb (fun c => negb (isWhiteSpace c)) s = true.
Proof.
  rewrite !forallb_forall. intros H c Hc.
  apply negb_true_iff, is_digit_not_blank, H, Hc.
Qed.

Lemma digits_no_comma s :
  forallb is_digit s = true -> forallb (fun c => negb (is_comma c)) s = true.
Proof.
  rewrite !forallb_forall. intros H c Hc.
  apply negb_true_iff, is_digit_not_comma, H, Hc.
Qed.



(** The index a token of digits stands for. *)
Lemma token_index_number len i :
  (i < len)%nat ->
  token_index len (number_toString (N.of_nat i + 1)) = Some (Z.of_nat i).
Proof.
  intros Hi. unfold token_index.
  destruct (number_toString_digits (N.of_nat i + 1)) as [_ Hall].
  rewrite (trim_no_blank _ (digits_no_blank _ Hall)), parseInt_number_toString.
  destruct (Z.leb_spec 1 (Z.of_N (N.of_nat i + 1))); [|lia].
  destruct (Z.leb_spec (Z.of_N (N.of_nat i + 1)) (Z.of_nat len)); [|lia].
  simpl. f_equal. lia.
Qed.


Lemma token_index_padded len p i :
  forallb isWhiteSpace p = true -> (i < len)%nat ->
  token_index len (p ++ number_toString (N.of_nat i + 1)) = Some (Z.of_nat i).
Proof.
  intros Hp Hi. rewrite <- (token_index_number len i Hi).
  unfold token_index. now rewrite trim_blank_prefix.
Qed.

(** The tokens of a list written with [", "] between its items. *)
Lemma split_on_join_comma_space ds :
  forallb (forallb (fun c => negb (is_comma c))) ds = true ->
  forall p,
    forallb (fun c => negb (is_comma c)) p = true ->
    split_on is_comma (p ++ join (js ", ") ds)
    = match ds with
      | [] => [p]
      | d :: r => (p ++ d) :: map (fun x => 0x20 :: x) r
      end.
Proof.
  induction ds as [|d [|d2 r] IH]; intros Hds p Hp.
  - simpl. rewrite app_nil_r. now apply split_on_no_sep.
  - simpl in Hds |- *. rewrite andb_true_r in Hds.
    apply split_on_no_sep. rewrite forallb_app. now rewrite Hp, Hds.
  - change (join (js ", ") (d :: d2 :: r))
      with (d ++ 0x2C :: [0x20] ++ join (js ", ") (d2 :: r)).
    cbn [forallb] in Hds. apply andb_true_iff in Hds as [Hd Hrest].
    rewrite app_assoc, split_on_app_sep;
      [|rewrite forallb_app; now rewrite Hp, Hd|reflexivity].
    f_equal. exact (IH Hrest [0x20] eq_refl).
Qed.

Lemma padded_tokens_indices len positions :
  Forall (fun i => (i < len)%nat) positions ->
  flat_map
    (fun tok =>
       match token_index len tok with
       | Some i => [Num i]
       | None => []
       end)
    (map (fun x => 0x20 :: x)
       (map (fun i => number_toString (N.of_nat i + 1)) positions))
  = map (fun i => Num (Z.of_nat i)) positions.
Proof.
  induction 1 as [|j r Hj _ IH]; [reflexivity|].
  cbn [map flat_map].
  match goal with
  | |- context [token_index len ?t] =>
      replace (token_index len t) with (Some (Z.of_nat j))
        by (symmetry; exact (token_index_padded len [32] j eq_refl Hj))
  end.
  now rewrite IH.
Qed.

(** X4: an answer of the ranker in the format the prompt asks for, the
    1-based numbers of pool positions written in decimal and separated by
    a comma and a space, is read back as exactly those positions, in
    order; nothing is lost and nothing is added. *)
Theorem ranked_list_round_trip len (positions : list nat) :
  Forall (fun i => (i < len)%nat) positions ->
  evaluatedIndexes
    (join (js ", ") (map (fun i => number_toString (N.of_nat i + 1)) positions)) len
  = map (fun i => Num (Z.of_nat i)) positions.
Proof.
  intros Hpos. unfold evaluatedIndexes. rewrite filter_map_tokens.
  rewrite <- (app_nil_l (join _ _)).
  rewrite split_on_join_comma_space; [|  |reflexivity].
  - destruct positions as [|i r]; [reflexivity|].
    inversion Hpos as [|? ? Hi Hr]; subst. cbn [map flat_map].
    match goal with
    | |- context [token_index len ?t] =>
        replace (token_index len t) with (Some (Z.of_nat i))
          by (symmetry; exact (token_index_padded len [] i eq_refl Hi))
    end.
    now rewrite (padded_tokens_indices len r Hr).
  - apply forallb_forall. intros d Hd. apply in_map_iff in Hd as (i & <- & _).
    apply digits_no_comma, number_toString_digits.
Qed.

(** ** Keys that an object literal treats specially *)

Lemma fill_unique_no_proto allResults indexes :
  forall o o',
    Forall (fun p => fst p <> js "__proto__") o ->
    fill_unique allResults indexes o = Normal o' ->
    Forall (fun p => fst p <> js "__proto__") o'.
Proof.
  induction indexes as [|index rest IH]; intros o o' Ho Hrun; simpl in Hrun.
  - now injection Hrun as <-.
  - destruct (array_get allResults index) as [msg|]; [|now apply (IH o)].
    unfold call_hasOwnProperty in Hrun.
    destruct (has_own o (js "hasOwnProperty")); [discriminate|].
    destruct (has_own o (permalink msg)) eqn:Hown; [now apply (IH o)|].
    rewrite (set_property_new _ _ _ Hown) in Hrun.
    destruct (jsstring_eqb (permalink msg) (js "__proto__")) eqn:Hp;
      [now apply (IH o)|].
    apply (IH (o ++ [(permalink msg, msg)]) o'); [|exact Hrun].
    apply Forall_app. split; [exact Ho|].
    constructor; [|constructor]. simpl. now apply jsstring_eqb_neq.
Qed.

(** X5: a hit whose permalink is [__proto__] never appears in the result,
    however often the index sequence refers to it: the assignment changes
    the prototype of [uniqueResults] instead of adding a property. *)
Theorem results_of_without_proto allResults indexes res :
  results_of allResults indexes = Normal res ->
  Forall (fun msg => permalink msg <> js "__proto__") res.
Proof.
  unfold results_of. generalize 15%nat. intros n Hrun.
  destruct (fill_unique allResults indexes []) as [o|e] eqn:Hfill; [|discriminate].
  injection Hrun as <-.
  pose proof (fill_unique_no_proto allResults indexes [] o (Forall_nil _) Hfill) as Hkeys.
  assert (Hinv : unique_inv allResults (referenced allResults indexes) o).
  { apply (fill_unique_inv allResults _ indexes [] o); [apply incl_refl| |exact Hfill].
    split; constructor. }
  destruct Hinv as [Hall _].
  apply Forall_forall. intros msg Hmsg.
  apply firstn_incl in Hmsg.
  apply (Permutation_in _ (Object_values_perm o)) in Hmsg.
  apply in_map_iff in Hmsg as (p & <- & Hp).
  rewrite Forall_forall in Hall, Hkeys.
  destruct (Hall p Hp) as (Hkey & _). rewrite <- Hkey. now apply Hkeys.
Qed.

Lemma results_of_without_proto_witness :
  let A := {| text := js "a"; permalink := js "__proto__" |} in
  let B := {| text := js "b"; permalink := js "https://x.slack.com/p2" |} in
  results_of [A; B] [Num 0; Num 1; Num 0] = Normal [B]
  /\ Forall (fun msg => permalink msg <> js "__proto__") [B].
Proof.
  intros A B. split; [reflexivity|].
  apply (results_of_without_proto [A; B] [Num 0; Num 1; Num 0]). reflexivity.
Defined.

(** X6: when the first hit referred to has the permalink
    [hasOwnProperty] and a second reference follows, the deduplication
    raises a [TypeError]: the stored hit shadows the method that the next
    test calls. *)
Theorem results_of_shadowing_raises allResults i j rest first second :
  array_get allResults i = Some first ->
  permalink first = js "hasOwnProperty" ->
  array_get allResults j = Some second ->
  results_of allResults (i :: j :: rest) = Thrown TypeError.
Proof.
  intros Hi Hkey Hj. unfold results_of. cbn [fill_unique].
  rewrite Hi, Hkey.
  change (call_hasOwnProperty [] (js "hasOwnProperty")) with (@Normal bool false).
  cbv beta iota.
  assert (Hset : set_property [] (js "hasOwnProperty") first
                 = [(js "hasOwnProperty", first)]).
  { unfold set_property.
    replace (jsstring_eqb (js "hasOwnProperty") (js "__proto__")) with false
      by (vm_compute; reflexivity).
    reflexivity. }
  rewrite Hset, Hj. unfold call_hasOwnProperty, has_own. cbn [existsb fst].
  now rewrite jsstring_eqb_refl.
Qed.

Lemma results_of_shadowing_raises_witness :
  let A := {| text := js "a"; permalink := js "hasOwnProperty" |} in
  let B := {| text := js "b"; permalink := js "https://x.slack.com/p2" |} in
  results_of [A; B] [Num 0; Num 1] = Thrown TypeError.
Proof.
  intros A B.
  apply (results_of_shadowing_raises [A; B] (Num 0) (Num 1) [] A B); reflexivity.
Defined.

(** ** What the handler may request *)

Section Issues.

Variable world : world_type.
Variable token : jsstring.

Lemma issues_ret {A : Type} P (a : A) : issues P (ret a).
Proof. intros h. exists [], (Normal a). unfold ret. now rewrite app_nil_r. Qed.

Lemma issues_throw {A : Type} P (e : js_error) : issues P (@throw A e).
Proof. intros h. exists [], (Thrown e). unfold throw. now rewrite app_nil_r. Qed.

Lemma issues_lift {A : Type} P (o : outcome A) : issues P (lift o).
Proof. intros h. exists [], o. unfold lift. now rewrite app_nil_r. Qed.

Lemma issues_log P (l : log_entry) : issues P (log l).
Proof. intros h. now exists [Logged l], (Normal tt). Qed.

Lemma issues_call P (q : request) : P q = true -> issues P (call world q).
Proof.
  intros HP h. exists [Called q (world h q)], (world h q). split; [reflexivity|].
  simpl. now rewrite HP.
Qed.

Lemma issues_bind {A B : Type} P (m : M A) (k : A -> M B) :
  issues P m -> (forall a, issues P (k a)) -> issues P (bind m k).
Proof.
  intros Hm Hk h. unfold bind.
  destruct (Hm h) as (h1 & [a|e] & -> & H1).
  - destruct (Hk a (h ++ h1)) as (h2 & out & -> & H2).
    exists (h1 ++ h2), out. rewrite app_assoc. split; [reflexivity|].
    now rewrite requests_app, forallb_app, H1, H2.
  - now exists h1, (Thrown e).
Qed.

Lemma issues_try_catch {A : Type} P (m : M A) (handler : js_error -> M A) :
  issues P m -> (forall e, issues P (handler e)) -> issues P (try_catch m handler).
Proof.
  intros Hm Hh h. unfold try_catch.
  destruct (Hm h) as (h1 & [a|e] & -> & H1).
  - now exists h1, (Normal a).
  - destruct (Hh e (h ++ h1)) as (h2 & out & -> & H2).
    exists (h1 ++ h2), out. rewrite app_assoc. split; [reflexivity|].
    now rewrite requests_app, forallb_app, H1, H2.
Qed.

Lemma issues_search_all P keywords allResults :
  (forall k, P (search_messages k 20 token true) = true) ->
  issues P (search_all world token keywords allResults).
Proof.
  intros HP h.
  destruct (search_all_run world token keywords allResults h) as (h' & -> & Hreq & _).
  eexists _, _. split; [reflexivity|]. rewrite Hreq.
  apply forallb_forall. intros q Hq. apply in_map_iff in Hq as (k & <- & _). apply HP.
Qed.

End Issues.

Ltac issues_tac :=
  repeat
    match goal with
    | |- issues _ (ret _) => apply issues_ret
    | |- issues _ (throw _) => apply issues_throw
    | |- issues _ (lift _) => apply issues_lift
    | |- issues _ (log _) => apply issues_log
    | |- issues ?P (call ?w ?q) => exact (issues_call w P q eq_refl)
    | |- issues _ (bind _ _) => apply issues_bind; [|intros ?]
    | |- issues _ (try_catch _ _) => apply issues_try_catch; [|intros ?]
    | |- issues _ (search_all _ _ _ _) => apply issues_search_all; reflexivity
    | |- issues _ (if ?b then _ else _) => destruct b
    | |- issues _ (match ?x with _ => _ end) => destruct x
    end.

Lemma userMessage_issues (world : world_type) token message :
  issues
    (allowed_request (jsstring_eqb (msg_text message) SUMMARIZE_PROMPT)
       (startsWith (msg_text message) FUZZY_PREFIX))
    (userMessage world token message).
Proof.
  unfold userMessage, summarize_channel, fetch_channelHistory, fuzzy_search,
    expand_and_search, search_and_rank, rank_and_present, answer_from_thread.
  cbv zeta.
  destruct (jsstring_eqb (msg_text message) SUMMARIZE_PROMPT);
    destruct (startsWith (msg_text message) FUZZY_PREFIX);
    issues_tac.
Qed.

Lemma flat_map_nil_forallb {A B : Type} (f : A -> list B) (P : A -> bool) l :
  (forall x, P x = true -> f x = []) -> forallb P l = true -> flat_map f l = [].
Proof.
  intros Hf. induction l as [|x r IH]; [reflexivity|].
  simpl. intros H. apply andb_true_iff in H as [Hx Hr].
  now rewrite (Hf x Hx), (IH Hr).
Qed.

Lemma no_search_calls h :
  forallb (fun q => negb (is_search q)) (requests h) = true -> search_calls h = [].
Proof.
  apply flat_map_nil_forallb. intros q Hq. now destruct q.
Qed.

Lemma no_channel_calls h :
  forallb (fun q => negb (is_channel_call q)) (requests h) = true ->
  join_calls h = [] /\ history_calls h = [].
Proof.
  intros H. split; revert H; apply flat_map_nil_forallb; intros q Hq; now destruct q.
Qed.

Lemma forallb_andb {A : Type} (P Q : A -> bool) l :
  forallb (fun x => P x && Q x) l = forallb P l && forallb Q l.
Proof.
  induction l as [|x r IH]; [reflexivity|].
  simpl. rewrite IH. destruct (P x), (Q x), (forallb P r); reflexivity.
Qed.

(** X7: the scenario decides what a message can trigger.  A run of
    [userMessage] issues a message search only when the text starts with
    the fuzzy-search label and is not the summary prompt, and it asks for
    a channel's history or to join a channel only when the text is the
    summary prompt. *)
Theorem userMessage_requests_by_scenario (world : world_type) token message h :
  exists h' out,
    userMessage world token message h = (h ++ h', out)
    /\ (search_calls h' <> [] ->
        startsWith (msg_text message) FUZZY_PREFIX = true
        /\ msg_text message <> SUMMARIZE_PROMPT)
    /\ (join_calls h' <> [] \/ history_calls h' <> [] ->
        msg_text message = SUMMARIZE_PROMPT).
Proof.
  destruct (userMessage_issues world token message h) as (h' & out & Hrun & Hall).
  exists h', out. split; [exact Hrun|].
  unfold allowed_request in Hall.
  destruct (jsstring_eqb (msg_text message) SUMMARIZE_PROMPT) eqn:Hs.
  - apply jsstring_eqb_eq in Hs. split; [|now intros _].
    intros Hsearch. now rewrite (no_search_calls h' Hall) in Hsearch.
  - apply jsstring_eqb_neq in Hs.
    destruct (startsWith (msg_text message) FUZZY_PREFIX) eqn:Hf.
    + split; [now intros _|].
      destruct (no_channel_calls h' Hall) as [Hj Hh]. rewrite Hj, Hh.
      intros [H|H]; congruence.
    + rewrite forallb_andb in Hall. apply andb_true_iff in Hall as [H1 H2].
      split.
      * intros Hsearch. now rewrite (no_search_calls h' H1) in Hsearch.
      * destruct (no_channel_calls h' H2) as [Hj Hh]. rewrite Hj, Hh.
        intros [H|H]; congruence.
Qed.

(** ** Counting the requests to the completion service *)

Lemma completion_calls_app h1 h2 :
  completion_calls (h1 ++ h2) = completion_calls h1 ++ completion_calls h2.
Proof. unfold completion_calls. now rewrite requests_app, flat_map_app. Qed.

Section Counting.

Variable world : world_type.
Variable token : jsstring.

Lemma amc_ret {A : Type} n (a : A) : at_most_completions n (ret a).
Proof.
  intros h. exists [], (Normal a). unfold ret. rewrite app_nil_r.
  split; [reflexivity|simpl; lia].
Qed.

Lemma amc_throw {A : Type} n (e : js_error) : at_most_completions n (@throw A e).
Proof.
  intros h. exists [], (Thrown e). unfold throw. rewrite app_nil_r.
  split; [reflexivity|simpl; lia].
Qed.

Lemma amc_lift {A : Type} n (o : outcome A) : at_most_completions n (lift o).
Proof.
  intros h. exists [], o. unfold lift. rewrite app_nil_r.
  split; [reflexivity|simpl; lia].
Qed.

Lemma amc_log n (l : log_entry) : at_most_completions n (log l).
Proof.
  intros h. exists [Logged l], (Normal tt). split; [reflexivity|simpl; lia].
Qed.

Lemma amc_call_other n (q : request) :
  is_completion q = false -> at_most_completions n (call world q).
Proof.
  intros Hq h. exists [Called q (world h q)], (world h q). split; [reflexivity|].
  destruct q; try discriminate Hq; simpl; lia.
Qed.

Lemma amc_call n (q : request) : (1 <= n)%nat -> at_most_completions n (call world q).
Proof.
  intros Hn h. exists [Called q (world h q)], (world h q). split; [reflexivity|].
  destruct q; simpl; lia.
Qed.

Lemma amc_bind {A B : Type} n1 n2 n (m : M A) (k : A -> M B) :
  at_most_completions n1 m -> (forall a, at_most_completions n2 (k a)) ->
  (n1 + n2 <= n)%nat ->
  at_most_completions n (bind m k).
Proof.
  intros Hm Hk Hn h. unfold bind.
  destruct (Hm h) as (h1 & [a|e] & -> & H1).
  - destruct (Hk a (h ++ h1)) as (h2 & out & -> & H2).
    exists (h1 ++ h2), out. rewrite app_assoc. split; [reflexivity|].
    rewrite completion_calls_app, length_app. lia.
  - exists h1, (Thrown e). split; [reflexivity|lia].
Qed.

Lemma amc_try_catch {A : Type} n1 n2 n (m : M A) (handler : js_error -> M A) :
  at_most_completions n1 m -> (forall e, at_most_completions n2 (handler e)) ->
  (n1 + n2 <= n)%nat ->
  at_most_completions n (try_catch m handler).
Proof.
  intros Hm Hh Hn h. unfold try_catch.
  destruct (Hm h) as (h1 & [a|e] & -> & H1).
  - exists h1, (Normal a). split; [reflexivity|lia].
  - destruct (Hh e (h ++ h1)) as (h2 & out & -> & H2).
    exists (h1 ++ h2), out. rewrite app_assoc. split; [reflexivity|].
    rewrite completion_calls_app, length_app. lia.
Qed.

Lemma amc_weaken {A : Type} n n' (m : M A) :
  at_most_completions n m -> (n <= n')%nat -> at_most_completions n' m.
Proof.
  intros Hm Hn h. destruct (Hm h) as (h' & out & Heq & Hle).
  exists h', out. split; [exact Heq|lia].
Qed.

Lemma amc_search_all keywords allResults :
  at_most_completions 0 (search_all world token keywords allResults).
Proof.
  intros h.
  destruct (search_all_run world token keywords allResults h) as (h' & -> & Hreq & _).
  destruct (search_calls_of_requests token keywords h' Hreq) as (_ & _ & Hc & _).
  eexists _, _. split; [reflexivity|]. rewrite Hc. simpl. lia.
Qed.

Lemma never_falls_bind {A : Type} (m : M A) (k : A -> M completion) :
  (forall a, never_falls_through (k a)) -> never_falls_through (bind m k).
Proof.
  intros Hk h. unfold bind. destruct (m h) as [h1 [a|e]]; [apply Hk|discriminate].
Qed.

Lemma never_falls_returned : never_falls_through (ret Returned).
Proof. intros h. discriminate. Qed.

Lemma completes_of_never_falls n (m : M completion) :
  at_most_completions n m -> never_falls_through m -> completes n 0 m.
Proof.
  intros Hm Hn h. destruct (Hm h) as (h' & out & Heq & Hle).
  exists h', out. repeat split; try assumption.
  intros ->. specialize (Hn h). rewrite Heq in Hn. now contradiction Hn.
Qed.

Lemma completes_ret_FellThrough : completes 0 0 (ret FellThrough).
Proof.
  intros h. exists [], (Normal FellThrough). unfold ret. rewrite app_nil_r.
  repeat split; simpl; lia.
Qed.

Lemma completes_weaken n nf n' nf' (m : M completion) :
  completes n nf m -> (n <= n')%nat -> (nf <= nf')%nat -> completes n' nf' m.
Proof.
  intros Hm H1 H2 h. destruct (Hm h) as (h' & out & Heq & Hle & Hf).
  exists h', out. repeat split; [exact Heq|lia|]. intros Ho. specialize (Hf Ho). lia.
Qed.

(** A step after a computation that only counts. *)
Lemma completes_bind {A : Type} a n nf (m : M A) (k : A -> M completion) :
  at_most_completions a m -> (forall x, completes n nf (k x)) ->
  completes (a + n) (a + nf) (bind m k).
Proof.
  intros Hm Hk h. unfold bind.
  destruct (Hm h) as (h1 & [x|e] & -> & H1).
  - destruct (Hk x (h ++ h1)) as (h2 & out & -> & H2 & Hf).
    exists (h1 ++ h2), out. rewrite app_assoc, completion_calls_app, length_app.
    repeat split; [lia|]. intros Ho. specialize (Hf Ho). lia.
  - exists h1, (Thrown e). repeat split; [lia|discriminate].
Qed.

(** What follows a fuzzy-search step, by the way the step ended. *)
Lemma completes_then {B : Type} n nf kr kf t (m : M completion)
  (k : completion -> M B) :
  completes n nf m ->
  at_most_completions kr (k Returned) -> at_most_completions kf (k FellThrough) ->
  (n + kr <= t)%nat -> (nf + kf <= t)%nat ->
  at_most_completions t (bind m k).
Proof.
  intros Hm Hr Hf H1 H2 h. unfold bind.
  destruct (Hm h) as (h1 & [[|]|e] & -> & Hle & Hfall).
  - destruct (Hr (h ++ h1)) as (h2 & out & -> & Hk).
    exists (h1 ++ h2), out. rewrite app_assoc, completion_calls_app, length_app.
    split; [reflexivity|lia].
  - destruct (Hf (h ++ h1)) as (h2 & out & -> & Hk).
    exists (h1 ++ h2), out. rewrite app_assoc, completion_calls_app, length_app.
    split; [reflexivity|]. specialize (Hfall eq_refl). lia.
  - exists h1, (Thrown e). split; [reflexivity|lia].
Qed.

End Counting.

Ltac amc_tac :=
  repeat
    match goal with
    | |- at_most_completions _ (ret _) => apply amc_ret
    | |- at_most_completions _ (throw _) => apply amc_throw
    | |- at_most_completions _ (lift _) => apply amc_lift
    | |- at_most_completions _ (log _) => apply amc_log
    | |- at_most_completions ?n (call ?w ?q) =>
        first [exact (amc_call_other w n q eq_refl) | apply amc_call; lia]
    | |- at_most_completions ?n (bind (call ?w ?q) _) =>
        first
          [ apply (amc_bind 0 n n);
            [exact (amc_call_other w 0 q eq_refl)|intros ?|lia]
          | apply (amc_bind 1 (pred n) n);
            [apply amc_call; lia|intros ?; cbn [pred]|simpl; lia] ]
    | |- at_most_completions ?n (bind (log _) _) =>
        apply (amc_bind 0 n n); [apply amc_log|intros ?|lia]
    | |- at_most_completions ?n (bind (lift _) _) =>
        apply (amc_bind 0 n n); [apply amc_lift|intros ?|lia]
    | |- at_most_completions ?n (try_catch _ _) =>
        apply (amc_try_catch n 0 n); [|intros ?|lia]
    | |- at_most_completions _ (if ?b then _ else _) => destruct b
    | |- at_most_completions _ (match ?x with _ => _ end) => destruct x
    end.

Section CountingHandler.

Variable world : world_type.
Variable token : jsstring.

Lemma amc_answer_from_thread message :
  at_most_completions 1 (answer_from_thread world message).
Proof. unfold answer_from_thread. cbv zeta. amc_tac. Qed.

Lemma amc_fetch_channelHistory threadContext :
  at_most_completions 0 (fetch_channelHistory world threadContext).
Proof. unfold fetch_channelHistory. amc_tac. Qed.

Lemma amc_summarize_channel : at_most_completions 1 (summarize_channel world).
Proof.
  unfold summarize_channel. amc_tac.
  apply (amc_bind 0 1 1); [apply amc_fetch_channelHistory| |lia].
  intros [history|]; cbv zeta; amc_tac.
Qed.

Lemma amc_rank_and_present query allResults :
  at_most_completions 1 (rank_and_present world query allResults).
Proof. unfold rank_and_present. amc_tac. Qed.

Lemma never_falls_rank_and_present query allResults :
  never_falls_through (rank_and_present world query allResults).
Proof.
  unfold rank_and_present.
  do 3 (apply never_falls_bind; intros ?).
  destruct (length a1 =? 0)%nat;
    apply never_falls_bind; intros ?; apply never_falls_returned.
Qed.

Lemma completes_search_and_rank query keywords :
  completes 1 0 (search_and_rank world token query keywords).
Proof.
  unfold search_and_rank.
  apply (completes_bind 0 1 0); [apply amc_search_all|].
  intros allResults. destruct (0 <? length allResults)%nat.
  - apply completes_of_never_falls;
      [apply amc_rank_and_present|apply never_falls_rank_and_present].
  - apply (completes_weaken 0 0); [apply completes_ret_FellThrough|lia|lia].
Qed.

Lemma completes_expand_and_search query :
  completes 2 1 (expand_and_search world token query).
Proof.
  unfold expand_and_search.
  apply (completes_bind 1 1 0); [apply amc_call; lia|]. intros content. cbv zeta.
  apply (completes_bind 0 1 0); [apply amc_log|]. intros _.
  apply (completes_bind 0 1 0);
    [exact (amc_call_other world 0 (say _) eq_refl)|]. intros _.
  apply completes_search_and_rank.
Qed.

Lemma completes_fuzzy_search txt : completes 2 1 (fuzzy_search world token txt).
Proof.
  unfold fuzzy_search. cbv zeta.
  destruct (length (split_on is_colon txt) <? 2)%nat.
  - apply (completes_weaken 0 0); [|lia|lia].
    apply (completes_bind 0 0 0);
      [exact (amc_call_other world 0 (say _) eq_refl)|].
    intros _. apply completes_of_never_falls;
      [apply amc_ret|apply never_falls_returned].
  - apply completes_expand_and_search.
Qed.

End CountingHandler.

Lemma amc_userMessage (world : world_type) token message :
  at_most_completions 2 (userMessage world token message).
Proof.
  unfold userMessage. amc_tac.
  - apply (amc_weaken 1 2); [apply amc_summarize_channel|lia].
  - destruct (startsWith (msg_text message) FUZZY_PREFIX).
    + apply (completes_then 2 1 0 1 2);
        [apply completes_fuzzy_search|apply amc_ret
        |apply amc_answer_from_thread|lia|lia].
    + apply (completes_then 0 0 0 1 2);
        [apply completes_ret_FellThrough|apply amc_ret
        |apply amc_answer_from_thread|lia|lia].
Qed.

(** X8: whatever the message and whatever the answers of Slack and of the
    completion service, one run of [userMessage] sends at most two requests
    to the completion service. *)
Theorem userMessage_at_most_two_completions (world : world_type) token message h :
  exists h' out,
    userMessage world token message h = (h ++ h', out)
    /\ (length (completion_calls h') <= 2)%nat.
Proof. apply amc_userMessage. Qed.

(** ** The apology *)

Lemma issues_extends {A : Type} P (m : M A) : issues P m -> extends m.
Proof.
  intros Hm h. destruct (Hm h) as (h' & out & Heq & _). now exists h', out.
Qed.

Lemma extends_userMessage_body (world : world_type) token message :
  extends
    (bind (call world (setTitle (msg_text message))) (fun _ =>
     bind (call world (setStatus (js "is typing.."))) (fun _ =>
     if jsstring_eqb (msg_text message) SUMMARIZE_PROMPT
     then summarize_channel world
     else
       bind (if startsWith (msg_text message) FUZZY_PREFIX
             then fuzzy_search world token (msg_text message)
             else ret FellThrough)
         (fun c =>
            match c with
            | Returned => ret tt
            | FellThrough => answer_from_thread world message
            end)))).
Proof.
  apply (issues_extends (fun _ => true)).
  unfold summarize_channel, fetch_channelHistory, fuzzy_search,
    expand_and_search, search_and_rank, rank_and_present, answer_from_thread.
  cbv zeta.
  destruct (jsstring_eqb (msg_text message) SUMMARIZE_PROMPT);
    destruct (startsWith (msg_text message) FUZZY_PREFIX);
    issues_tac.
Qed.

(** X9: [userMessage] rejects only when its last resort does.  When the
    [try] block ends normally, the handler ends normally with the trace
    of the block and nothing more.  When the block raises an error, the
    handler logs that error, then posts the apology
    ["Sorry, something went wrong!"], these two events and no other
    coming after the trace of the block; the handler ends as that posting
    ends, so it rejects exactly when the posting of the apology is itself
    rejected. *)
Theorem userMessage_rejects_only_with_apology (world : world_type) token message h :
  exists hb ob,
    userMessage_body world token message h = (h ++ hb, ob)
    /\ userMessage world token message h
       = match ob with
         | Normal _ => (h ++ hb, Normal tt)
         | Thrown raised =>
             let h1 := h ++ hb ++ [Logged (logger_error raised)] in
             (h1 ++ [Called (say SOMETHING_WRONG) (world h1 (say SOMETHING_WRONG))],
              world h1 (say SOMETHING_WRONG))
         end.
Proof.
  destruct (extends_userMessage_body world token message h) as (hb & ob & Hbody).
  exists hb, ob. split; [exact Hbody|].
  unfold userMessage, try_catch.
  change (userMessage_body world token message h = (h ++ hb, ob)) in Hbody.
  unfold userMessage_body in Hbody. rewrite Hbody.
  destruct ob as [[]|raised]; [reflexivity|].
  unfold bind, log, call. cbv zeta. now rewrite <- !app_assoc.
Qed.

(** ** The routes through the handler when nothing is rejected *)

Lemma bind_ret {A B : Type} (a : A) (k : A -> M B) h : bind (ret a) k h = k a h.
Proof. reflexivity. Qed.

Lemma bind_log {B : Type} (l : log_entry) (k : unit -> M B) h :
  bind (log l) k h = k tt (h ++ [Logged l]).
Proof. reflexivity. Qed.

Lemma call_normal (world : world_type) (q : request) h a :
  world h q = Normal a -> call world q h = (h ++ [Called q (Normal a)], Normal a).
Proof. intros H. unfold call. now rewrite H. Qed.

Lemma sample_world_never_rejects expansion later found :
  (forall k, exists a, found k = Normal a) ->
  never_rejects (sample_world expansion later found).
Proof.
  intros Hfound h q. destruct q; simpl; try (now eexists).
  - now destruct (completion_calls h); eexists.
  - apply Hfound.
Qed.

(** X10: an ordinary message (not the summary prompt, not starting with
    the fuzzy-search label), when no call is rejected, is handled by
    exactly five calls: title, status, the replies of the thread, one
    completion request made of the system prompt, the thread (bot messages
    as [assistant], the others as [user]) and the message itself, and the
    posting of exactly the answer of the completion service. *)
Theorem userMessage_plain_message (world : world_type) token message h :
  never_rejects world ->
  jsstring_eqb (msg_text message) SUMMARIZE_PROMPT = false ->
  startsWith (msg_text message) FUZZY_PREFIX = false ->
  exists thread answer,
    userMessage world token message h
    = (h ++ [Called (setTitle (msg_text message)) (Normal tt);
             Called (setStatus (js "is typing..")) (Normal tt);
             Called (conversations_replies (channel message) (thread_ts message)
                       (thread_ts message)) (Normal thread);
             Called (chat_completions_create MODEL 1
                       (thread_messages thread (msg_text message))) (Normal answer);
             Called (say answer) (Normal tt)],
       Normal tt).
Proof.
  intros Hnr Hs Hf.
  destruct (Hnr h (setTitle (msg_text message))) as [[] H1].
  set (h1 := h ++ [Called (setTitle (msg_text message)) (Normal tt)]).
  destruct (Hnr h1 (setStatus (js "is typing.."))) as [[] H2].
  set (h2 := h1 ++ [Called (setStatus (js "is typing..")) (Normal tt)]).
  set (q3 := conversations_replies (channel message) (thread_ts message)
               (thread_ts message)).
  destruct (Hnr h2 q3) as [thread H3].
  set (h3 := h2 ++ [Called q3 (Normal thread)]).
  set (q4 := chat_completions_create MODEL 1 (thread_messages thread (msg_text message))).
  destruct (Hnr h3 q4) as [answer H4].
  set (h4 := h3 ++ [Called q4 (Normal answer)]).
  destruct (Hnr h4 (say answer)) as [[] H5].
  exists thread, answer. subst h4 q4 h3 q3 h2 h1.
  unfold userMessage, try_catch.
  rewrite (bind_call_normal world _ _ _ _ H1).
  rewrite (bind_call_normal world _ _ _ _ H2).
  rewrite Hs, Hf, bind_ret. unfold answer_from_thread. cbv zeta.
  rewrite (bind_call_normal world _ _ _ _ H3).
  rewrite (bind_call_normal world _ _ _ _ H4).
  rewrite (call_normal world _ _ _ H5).
  now rewrite <- !app_assoc.
Qed.

Lemma bind_bind {A B C : Type} (m : M A) (k1 : A -> M B) (k2 : B -> M C) h :
  bind (bind m k1) k2 h = bind m (fun a => bind (k1 a) k2) h.
Proof. unfold bind. now destruct (m h) as [h' [a|e]]. Qed.

Lemma bind_normal {A B : Type} (m : M A) (k : A -> M B) h h' a :
  m h = (h', Normal a) -> bind m k h = k a h'.
Proof. intros H. unfold bind. now rewrite H. Qed.

Lemma bind_thrown {A B : Type} (m : M A) (k : A -> M B) h h' e :
  m h = (h', Thrown e) -> bind m k h = (h', Thrown e).
Proof. intros H. unfold bind. now rewrite H. Qed.

(** X11: a message that starts with the fuzzy-search label and contains
    no colon, when no call is rejected, is answered with the usage hint
    and nothing else: after the title and the status the only call is the
    posting of the hint; no request goes to the completion service or to
    the search. *)
Theorem userMessage_usage_hint (world : world_type) token message h :
  never_rejects world ->
  startsWith (msg_text message) FUZZY_PREFIX = true ->
  forallb (fun c => negb (is_colon c)) (msg_text message) = true ->
  userMessage world token message h
  = (h ++ [Called (setTitle (msg_text message)) (Normal tt);
           Called (setStatus (js "is typing..")) (Normal tt);
           Called (say USAGE_HINT) (Normal tt)],
     Normal tt).
Proof.
  intros Hnr Hf Hcolon.
  destruct (Hnr h (setTitle (msg_text message))) as [[] H1].
  set (h1 := h ++ [Called (setTitle (msg_text message)) (Normal tt)]).
  destruct (Hnr h1 (setStatus (js "is typing.."))) as [[] H2].
  set (h2 := h1 ++ [Called (setStatus (js "is typing..")) (Normal tt)]).
  destruct (Hnr h2 (say USAGE_HINT)) as [[] H3].
  subst h2 h1. unfold userMessage, try_catch.
  rewrite (bind_call_normal world _ _ _ _ H1).
  rewrite (bind_call_normal world _ _ _ _ H2).
  rewrite (fuzzy_prefix_not_summarize _ Hf), Hf.
  unfold fuzzy_search. rewrite (split_on_no_sep _ _ Hcolon). cbv zeta.
  change (length [msg_text message] <? 2)%nat with true. cbv iota.
  rewrite bind_bind, (bind_call_normal world _ _ _ _ H3), !bind_ret.
  unfold ret. now rewrite <- !app_assoc.
Qed.

(** ** The summary scenario *)

Lemma fetch_channelHistory_first_try (world : world_type) threadContext h history :
  world h (conversations_history (channel_id threadContext) 50) = Normal history ->
  fetch_channelHistory world threadContext h
  = (h ++ [Called (conversations_history (channel_id threadContext) 50) (Normal history)],
     Normal (Some history)).
Proof.
  intros H. unfold fetch_channelHistory, try_catch.
  now rewrite (bind_call_normal world _ _ _ _ H).
Qed.

(** X12: the summary prompt, when no call is rejected, is handled by
    exactly six calls: title, status, the thread context, one history
    request for that channel with limit 50 (no request to join), one
    completion request made of the system prompt and of the summary prompt
    built from that history, and the posting of exactly the answer. *)
Theorem userMessage_summary (world : world_type) token message h :
  never_rejects world ->
  msg_text message = SUMMARIZE_PROMPT ->
  exists threadContext history answer,
    userMessage world token message h
    = (h ++ [Called (setTitle (msg_text message)) (Normal tt);
             Called (setStatus (js "is typing..")) (Normal tt);
             Called getThreadContext (Normal threadContext);
             Called (conversations_history (channel_id threadContext) 50)
               (Normal history);
             Called (chat_completions_create MODEL 1
                       [system_message;
                        user_prompt (summary_prompt threadContext history)])
               (Normal answer);
             Called (say answer) (Normal tt)],
       Normal tt).
Proof.
  intros Hnr Htxt.
  destruct (Hnr h (setTitle (msg_text message))) as [[] H1].
  set (h1 := h ++ [Called (setTitle (msg_text message)) (Normal tt)]).
  destruct (Hnr h1 (setStatus (js "is typing.."))) as [[] H2].
  set (h2 := h1 ++ [Called (setStatus (js "is typing..")) (Normal tt)]).
  destruct (Hnr h2 getThreadContext) as [threadContext H3].
  set (h3 := h2 ++ [Called getThreadContext (Normal threadContext)]).
  set (q4 := conversations_history (channel_id threadContext) 50).
  destruct (Hnr h3 q4) as [history H4].
  set (h4 := h3 ++ [Called q4 (Normal history)]).
  set (q5 := chat_completions_create MODEL 1
               [system_message; user_prompt (summary_prompt threadContext history)]).
  destruct (Hnr h4 q5) as [answer H5].
  set (h5 := h4 ++ [Called q5 (Normal answer)]).
  destruct (Hnr h5 (say answer)) as [[] H6].
  exists threadContext, history, answer. subst h5 q5 h4 q4 h3 h2 h1.
  unfold userMessage, try_catch.
  rewrite (bind_call_normal world _ _ _ _ H1).
  rewrite (bind_call_normal world _ _ _ _ H2).
  replace (jsstring_eqb (msg_text message) SUMMARIZE_PROMPT) with true
    by (symmetry; now apply jsstring_eqb_eq).
  unfold summarize_channel.
  rewrite (bind_call_normal world _ _ _ _ H3).
  rewrite (bind_normal _ _ _ _ _ (fetch_channelHistory_first_try world _ _ _ H4)).
  cbv zeta.
  rewrite (bind_call_normal world _ _ _ _ H5).
  rewrite (call_normal world _ _ _ H6).
  now rewrite <- !app_assoc.
Qed.

Lemma bind_call_thrown {B : Type} (world : world_type) (q : request)
  (k : reply_type q -> M B) h e :
  world h q = Thrown e ->
  bind (call world q) k h = (h ++ [Called q (Thrown e)], Thrown e).
Proof. intros H. unfold bind, call. now rewrite H. Qed.

Lemma fetch_channelHistory_gives_up (world : world_type) threadContext h e :
  world h (conversations_history (channel_id threadContext) 50) = Thrown e ->
  e <> PlatformError (js "not_in_channel") ->
  exists logs out,
    fetch_channelHistory world threadContext h
    = (h ++ Called (conversations_history (channel_id threadContext) 50) (Thrown e)
              :: logs, out)
    /\ requests logs = []
    /\ (out = Normal None \/ out = Thrown TypeError).
Proof.
  intros H He. unfold fetch_channelHistory, try_catch.
  rewrite (bind_call_thrown world _ _ _ _ H).
  destruct e as [code| |description].
  - destruct (jsstring_eqb code (js "not_in_channel")) eqn:Hcode.
    + apply jsstring_eqb_eq in Hcode. now subst code.
    + rewrite bind_log. unfold ret.
      eexists _, _. rewrite <- !app_assoc. repeat split. now left.
  - unfold throw. exists [], (Thrown TypeError). repeat split. now right.
  - unfold throw. exists [], (Thrown TypeError). repeat split. now right.
Qed.

(** X13: when the history request of the summary is rejected by anything
    but a [not_in_channel] error of the platform, the summary is given up
    with a [TypeError] (the history is left undefined): the only requests
    are the thread context and that history request; there is no request
    to join, no completion request and nothing is posted. *)
Theorem summarize_channel_gives_up (world : world_type) h threadContext e :
  world h getThreadContext = Normal threadContext ->
  world (h ++ [Called getThreadContext (Normal threadContext)])
    (conversations_history (channel_id threadContext) 50) = Thrown e ->
  e <> PlatformError (js "not_in_channel") ->
  exists h',
    summarize_channel world h = (h ++ h', Thrown TypeError)
    /\ requests h'
       = [getThreadContext; conversations_history (channel_id threadContext) 50].
Proof.
  intros H1 H2 He. unfold summarize_channel.
  rewrite (bind_call_normal world _ _ _ _ H1).
  destruct (fetch_channelHistory_gives_up world threadContext _ e H2 He)
    as (logs & out & Hrun & Hlogs & [->| ->]).
  - rewrite (bind_normal _ _ _ _ _ Hrun). unfold throw.
    eexists. rewrite <- !app_assoc. split; [reflexivity|].
    simpl. now rewrite Hlogs.
  - rewrite (bind_thrown _ _ _ _ _ Hrun).
    eexists. rewrite <- !app_assoc. split; [reflexivity|].
    simpl. now rewrite Hlogs.
Qed.

Lemma summary_prompt_fold (history : list history_message) :
  forall start,
    fold_left
      (fun llmPrompt m =>
         match user m with
         | Some u =>
             if truthy (user m) then
               llmPrompt ++ js "
<@" ++ u ++ js "> says: " ++ h_text m
             else llmPrompt
         | None => llmPrompt
         end)
      history start
    = start ++ concat (map summary_line (filter (fun m => truthy (user m)) history)).
Proof.
  induction history as [|m r IH]; intros start; simpl.
  - now rewrite app_nil_r.
  - rewrite IH. unfold summary_line at 2.
    destruct (user m) as [u|] eqn:Hu; simpl.
    + destruct u as [|c u']; simpl; [reflexivity|].
      rewrite Hu. now rewrite <- !app_assoc.
    + reflexivity.
Qed.

(** X14: the summary prompt is its header, naming the channel, followed
    by one line per message that has a non-empty user, the messages taken
    in the reverse of the order of the history (oldest first when the
    history comes newest first); messages without user add nothing. *)
Theorem summary_prompt_lines threadContext history :
  summary_prompt threadContext history
  = summary_header threadContext
    ++ concat (map summary_line (filter (fun m => truthy (user m)) (rev history))).
Proof.
  unfold summary_prompt, summary_header.
  exact (summary_prompt_fold (rev history) _).
Qed.

(** ** The end of the ranking *)

Lemma bind_lift {A B : Type} (o : outcome A) (k : A -> M B) h :
  bind (lift o) k h = match o with Normal a => k a h | Thrown e => (h, Thrown e) end.
Proof. unfold bind, lift. now destruct o. Qed.

(** Posting a text and returning. *)
Lemma say_and_return (world : world_type) txt h :
  bind (call world (say txt)) (fun _ => ret Returned) h
  = (h ++ [Called (say txt) (world h (say txt))],
     match world h (say txt) with
     | Normal _ => Normal Returned
     | Thrown e => Thrown e
     end).
Proof. unfold bind, call, ret. cbv zeta. now destruct (world h (say txt)). Qed.

Lemma valid_index_get (pool : list MessageHit) index :
  valid_index (length pool) index = true -> exists msg, array_get pool index = Some msg.
Proof.
  intros H. apply valid_index_range in H as (z & -> & Hz).
  unfold array_get. destruct (Z.ltb_spec z 0); [lia|].
  destruct (nth_error pool (Z.to_nat z)) as [msg|] eqn:Hnth; [now exists msg|].
  apply nth_error_None in Hnth. lia.
Qed.

(** X15: when the answer of the ranking holds no valid index (no token
    that parses to a position of the pool), the user is told that nothing
    relevant was found: after the ranking request and the log entry the
    only call is the posting of that message, and the handler returns. *)
Theorem rank_and_present_nothing_relevant (world : world_type) query pool h content :
  let q := chat_completions_create MODEL 1
             [system_message; user_prompt (evaluationPrompt query pool)] in
  let h1 := h ++ [Called q (Normal content);
                  Logged (console_log [js "評価の回答: "; content])] in
  world h q = Normal content ->
  evaluatedIndexes content (length pool) = [] ->
  rank_and_present world query pool h
  = (h1 ++ [Called (say NO_RELEVANT) (world h1 (say NO_RELEVANT))],
     match world h1 (say NO_RELEVANT) with
     | Normal _ => Normal Returned
     | Thrown e => Thrown e
     end).
Proof.
  intros q h1 Hq Hidx. unfold rank_and_present.
  rewrite (bind_call_normal world _ _ _ _ Hq), bind_log, Hidx, bind_lift.
  change (results_of pool []) with (@Normal (list MessageHit) []). cbv iota beta.
  change (length (@nil MessageHit) =? 0)%nat with true. cbv iota.
  rewrite say_and_return. subst h1. now rewrite <- !app_assoc.
Qed.

(** X16: when the answer of the ranking holds at least one valid index
    and the permalinks referred to are plain keys, the user receives the
    formatted list of the deduplicated hits, which is not empty, and never
    the message for nothing relevant. *)
Theorem rank_and_present_posts_results (world : world_type) query pool h content :
  let q := chat_completions_create MODEL 1
             [system_message; user_prompt (evaluationPrompt query pool)] in
  let h1 := h ++ [Called q (Normal content);
                  Logged (console_log [js "評価の回答: "; content])] in
  let indexes := evaluatedIndexes content (length pool) in
  let results := firstn 15 (keep_first [] (referenced pool indexes)) in
  world h q = Normal content ->
  indexes <> [] ->
  forallb (fun msg => plain_key (permalink msg)) (referenced pool indexes) = true ->
  results <> []
  /\ rank_and_present world query pool h
     = (h1 ++ [Called (say (responseText results))
                 (world h1 (say (responseText results)))],
        match world h1 (say (responseText results)) with
        | Normal _ => Normal Returned
        | Thrown e => Thrown e
        end).
Proof.
  intros q h1 indexes results Hq Hne Hplain.
  assert (Hres : exists msg rest, results = msg :: rest).
  { subst results. destruct indexes as [|index r] eqn:Hidx; [congruence|].
    assert (Hvalid : valid_index (length pool) index = true).
    { assert (Hin : In index indexes) by (rewrite Hidx; now left).
      unfold indexes, evaluatedIndexes in Hin. now apply filter_In in Hin as [_ ?]. }
    destruct (valid_index_get pool index Hvalid) as [msg Hmsg].
    unfold referenced. cbn [flat_map]. rewrite Hmsg. cbn [app keep_first existsb firstn].
    now eexists _, _. }
  destruct Hres as (msg & rest & Hres). split; [congruence|].
  unfold rank_and_present.
  rewrite (bind_call_normal world _ _ _ _ Hq), bind_log, bind_lift.
  fold indexes. rewrite (results_of_plain pool indexes Hplain). fold results.
  cbv iota beta. rewrite Hres.
  change (length (msg :: rest) =? 0)%nat with false. cbv iota.
  rewrite say_and_return. subst h1. now rewrite <- !app_assoc.
Qed.

(** ** The thread handlers *)

(** X17: [threadStarted] never rejects.  It greets, saves the thread
    context and sets the suggested prompts, in that order; the first
    rejected call ends the sequence and is logged, so that the prompts are
    set only when the greeting and the saving went through. *)
Theorem threadStarted_never_rejects (world : Thread.world_type) ctx h :
  let greet := Thread.say Thread.GREETING in
  let prompts := Thread.setSuggestedPrompts (Thread.prompts_for ctx) Thread.HEADING in
  exists h',
    Thread.threadStarted world ctx h = (h ++ h', Normal tt)
    /\ (h' = [Thread.Called greet (Normal tt);
              Thread.Called Thread.saveThreadContext (Normal tt);
              Thread.Called prompts (Normal tt)]
        \/ (exists e, h' = [Thread.Called greet (Thrown e); Thread.Logged e])
        \/ (exists e, h' = [Thread.Called greet (Normal tt);
                            Thread.Called Thread.saveThreadContext (Thrown e);
                            Thread.Logged e])
        \/ (exists e, h' = [Thread.Called greet (Normal tt);
                            Thread.Called Thread.saveThreadContext (Normal tt);
                            Thread.Called prompts (Thrown e);
                            Thread.Logged e])).
Proof.
  intros greet prompts.
  unfold Thread.threadStarted, Thread.try_catch, Thread.bind, Thread.call,
    Thread.logger_error.
  cbv zeta. fold greet. fold prompts.
  destruct (world h greet) as [[]|e1].
  - destruct (world (h ++ [Thread.Called greet (Normal tt)]) Thread.saveThreadContext)
      as [[]|e2].
    + destruct (world ((h ++ [Thread.Called greet (Normal tt)])
                         ++ [Thread.Called Thread.saveThreadContext (Normal tt)]) prompts)
        as [[]|e3];
        eexists; (split; [rewrite <- !app_assoc; reflexivity|]).
      * now left.
      * right. right. right. now exists e3.
    + eexists. split; [rewrite <- !app_assoc; reflexivity|].
      right. right. left. now exists e2.
  - eexists. split; [rewrite <- !app_assoc; reflexivity|].
    right. left. now exists e1.
Qed.

(** X18: [threadContextChanged] never rejects: it saves the thread
    context, and a rejection of that call is logged. *)
Theorem threadContextChanged_never_rejects (world : Thread.world_type) h :
  exists h',
    Thread.threadContextChanged world h = (h ++ h', Normal tt)
    /\ (h' = [Thread.Called Thread.saveThreadContext (Normal tt)]
        \/ exists e, h' = [Thread.Called Thread.saveThreadContext (Thrown e);
                           Thread.Logged e]).
Proof.
  unfold Thread.threadContextChanged, Thread.try_catch, Thread.call,
    Thread.logger_error.
  cbv zeta. destruct (world h Thread.saveThreadContext) as [[]|e].
  - eexists. split; [reflexivity|]. now left.
  - eexists. split; [rewrite <- !app_assoc; reflexivity|]. right. now exists e.
Qed.

Lemma suggested_prompt_cases ctx p :
  In p (Thread.prompts_for ctx) ->
  p = Thread.generic_prompt
  \/ (p = Thread.summarize_prompt /\ truthy (Thread.channel_id ctx) = true)
  \/ p = Thread.fuzzy_prompt.
Proof.
  unfold Thread.prompts_for. cbv zeta.
  destruct (truthy (Thread.channel_id ctx)); cbn [app In]; intros H.
  - destruct H as [<-|[<-|[<-|[]]]]; [now left|right; left; now split|now right; right].
  - destruct H as [<-|[<-|[]]]; [now left|now right; right].
Qed.

(** X19: what the suggested prompts do when clicked.  The list set by
    [threadStarted] has at most four prompts; the message of any of them,
    sent to [userMessage], never leads to a message search, not even for
    the prompt titled ["Fuzzy search"], whose message does not start with
    the fuzzy-search label; and it leads to a channel-history request only
    for the prompt ["Summarize channel"], which is offered only when the
    thread has a channel. *)
Theorem suggested_prompts_routes (world : world_type) token ctx p message h :
  In p (Thread.prompts_for ctx) ->
  msg_text message = Thread.message p ->
  (length (Thread.prompts_for ctx) <= 4)%nat
  /\ exists h' out,
      userMessage world token message h = (h ++ h', out)
      /\ search_calls h' = []
      /\ (history_calls h' <> [] ->
          p = Thread.summarize_prompt /\ truthy (Thread.channel_id ctx) = true).
Proof.
  intros Hin Htxt. split.
  - unfold Thread.prompts_for. cbv zeta.
    destruct (truthy (Thread.channel_id ctx)); cbn [app length]; lia.
  - destruct (userMessage_issues world token message h) as (h' & out & Hrun & Hall).
    exists h', out. split; [exact Hrun|]. rewrite Htxt in Hall.
    destruct (suggested_prompt_cases ctx p Hin) as [->|[[-> Hctx]| ->]].
    + replace (jsstring_eqb (Thread.message Thread.generic_prompt) SUMMARIZE_PROMPT)
        with false in Hall by (vm_compute; reflexivity).
      replace (startsWith (Thread.message Thread.generic_prompt) FUZZY_PREFIX)
        with false in Hall by (vm_compute; reflexivity).
      unfold allowed_request in Hall.
      rewrite forallb_andb in Hall. apply andb_true_iff in Hall as [H1 H2].
      split; [exact (no_search_calls h' H1)|].
      destruct (no_channel_calls h' H2) as [_ Hh]. rewrite Hh.
      intros Hc. exfalso. apply Hc. reflexivity.
    + replace (jsstring_eqb (Thread.message Thread.summarize_prompt) SUMMARIZE_PROMPT)
        with true in Hall by (vm_compute; reflexivity).
      unfold allowed_request in Hall.
      split; [exact (no_search_calls h' Hall)|]. intros _. split; [reflexivity|exact Hctx].
    + replace (jsstring_eqb (Thread.message Thread.fuzzy_prompt) SUMMARIZE_PROMPT)
        with false in Hall by (vm_compute; reflexivity).
      replace (startsWith (Thread.message Thread.fuzzy_prompt) FUZZY_PREFIX)
        with false in Hall by (vm_compute; reflexivity).
      unfold allowed_request in Hall.
      rewrite forallb_andb in Hall. apply andb_true_iff in Hall as [H1 H2].
      split; [exact (no_search_calls h' H1)|].
      destruct (no_channel_calls h' H2) as [_ Hh]. rewrite Hh.
      intros Hc. exfalso. apply Hc. reflexivity.
Qed.

(** ** Concrete runs of the properties above *)


Lemma ranked_list_round_trip_witness :
  evaluatedIndexes
    (join (js ", ") (map (fun i => number_toString (N.of_nat i + 1)) [2; 0; 4]%nat)) 5
  = map (fun i => Num (Z.of_nat i)) [2; 0; 4]%nat.
Proof.
  apply (ranked_list_round_trip 5 [2; 0; 4]%nat).
  repeat constructor; lia.
Defined.

Lemma userMessage_requests_by_scenario_witness :
  let hitA := {| text := js "status update"; permalink := js "https://x.slack.com/p1" |} in
  let found (_ : jsstring) := Normal {| messages := Some {| matches := Some [hitA] |} |} in
  let world := sample_world (js "foo") (js "1") found in
  let message := sample_message (js "Fuzzy search: foo") in
  startsWith (msg_text message) FUZZY_PREFIX = true
  /\ msg_text message <> SUMMARIZE_PROMPT.
Proof.
  intros hitA found world message.
  destruct (userMessage_requests_by_scenario world (js "xoxp") message [])
    as (h' & out & Hrun & Hsearch & _).
  apply Hsearch.
  apply (f_equal fst) in Hrun. cbn [fst app] in Hrun. rewrite <- Hrun.
  vm_compute. discriminate.
Defined.

Lemma userMessage_plain_message_witness :
  let world := sample_world (js "an answer") (js "1") (fun _ => Normal {| messages := None |}) in
  let message := sample_message (js "hello") in
  exists thread answer,
    userMessage world (js "xoxp") message []
    = ([] ++ [Called (setTitle (msg_text message)) (Normal tt);
              Called (setStatus (js "is typing..")) (Normal tt);
              Called (conversations_replies (channel message) (thread_ts message)
                        (thread_ts message)) (Normal thread);
              Called (chat_completions_create MODEL 1
                        (thread_messages thread (msg_text message))) (Normal answer);
              Called (say answer) (Normal tt)],
       Normal tt).
Proof.
  intros world message.
  apply (userMessage_plain_message world (js "xoxp") message []).
  - apply sample_world_never_rejects. intros k. now eexists.
  - vm_compute. reflexivity.
  - vm_compute. reflexivity.
Defined.

Lemma userMessage_usage_hint_witness :
  let world := sample_world (js "foo") (js "1") (fun _ => Normal {| messages := None |}) in
  let message := sample_message (js "Fuzzy search 進捗報告") in
  userMessage world (js "xoxp") message []
  = ([] ++ [Called (setTitle (msg_text message)) (Normal tt);
            Called (setStatus (js "is typing..")) (Normal tt);
            Called (say USAGE_HINT) (Normal tt)],
     Normal tt).
Proof.
  intros world message.
  apply (userMessage_usage_hint world (js "xoxp") message []).
  - apply sample_world_never_rejects. intros k. now eexists.
  - vm_compute. reflexivity.
  - vm_compute. reflexivity.
Defined.

Lemma userMessage_summary_witness :
  let world := sample_world (js "a summary") (js "1") (fun _ => Normal {| messages := None |}) in
  let message := sample_message SUMMARIZE_PROMPT in
  exists threadContext history answer,
    userMessage world (js "xoxp") message []
    = ([] ++ [Called (setTitle (msg_text message)) (Normal tt);
              Called (setStatus (js "is typing..")) (Normal tt);
              Called getThreadContext (Normal threadContext);
              Called (conversations_history (channel_id threadContext) 50)
                (Normal history);
              Called (chat_completions_create MODEL 1
                        [system_message;
                         user_prompt (summary_prompt threadContext history)])
                (Normal answer);
              Called (say answer) (Normal tt)],
       Normal tt).
Proof.
  intros world message.
  apply (userMessage_summary world (js "xoxp") message []).
  - apply sample_world_never_rejects. intros k. now eexists.
  - reflexivity.
Defined.

Lemma summarize_channel_gives_up_witness :
  let world : world_type :=
    fun h q =>
      match q return outcome (reply_type q) with
      | conversations_history _ _ => Thrown (PlatformError (js "ratelimited"))
      | other => sample_world [] [] (fun _ => Thrown TypeError) h other
      end in
  exists h',
    summarize_channel world [] = ([] ++ h', Thrown TypeError)
    /\ requests h'
       = [getThreadContext;
          conversations_history (channel_id {| channel_id := js "C0123" |}) 50].
Proof.
  intros world.
  apply (summarize_channel_gives_up world [] {| channel_id := js "C0123" |}
           (PlatformError (js "ratelimited"))).
  - reflexivity.
  - reflexivity.
  - intros H. injection H as H. vm_compute in H. discriminate H.
Defined.

Lemma rank_and_present_nothing_relevant_witness :
  let hitA := {| text := js "status update"; permalink := js "https://x.slack.com/p1" |} in
  let world := sample_world (js "none of them") (js "1") (fun _ => Normal {| messages := None |}) in
  said (fst (rank_and_present world (js "foo") [hitA] [])) = [NO_RELEVANT].
Proof.
  intros hitA world.
  rewrite (rank_and_present_nothing_relevant world (js "foo") [hitA] [] (js "none of them"));
    vm_compute; reflexivity.
Defined.

Lemma rank_and_present_posts_results_witness :
  let hitA := {| text := js "status update"; permalink := js "https://x.slack.com/p1" |} in
  let world := sample_world (js "1, 1") (js "1") (fun _ => Normal {| messages := None |}) in
  said (fst (rank_and_present world (js "foo") [hitA] [])) = [responseText [hitA]].
Proof.
  intros hitA world.
  destruct (rank_and_present_posts_results world (js "foo") [hitA] [] (js "1, 1"))
    as [_ Hrun].
  - vm_compute. reflexivity.
  - vm_compute. discriminate.
  - vm_compute. reflexivity.
  - rewrite Hrun. vm_compute. reflexivity.
Defined.

Lemma suggested_prompts_routes_witness :
  let world := sample_world (js "an answer") (js "1") (fun _ => Normal {| messages := None |}) in
  let ctx := {| Thread.channel_id := Some (js "C0123") |} in
  let message := sample_message (Thread.message Thread.fuzzy_prompt) in
  (length (Thread.prompts_for ctx) <= 4)%nat
  /\ exists h' out,
      userMessage world (js "xoxp") message [] = ([] ++ h', out)
      /\ search_calls h' = []
      /\ (history_calls h' <> [] ->
          Thread.fuzzy_prompt = Thread.summarize_prompt
          /\ truthy (Thread.channel_id ctx) = true).
Proof.
  intros world ctx message.
  apply (suggested_prompts_routes world (js "xoxp") ctx Thread.fuzzy_prompt message []).
  - right. right. left. reflexivity.
  - reflexivity.
Defined.
